(** * SendHelp interpreter: lexer, arrow decoder, parser and execution engine

    A shallow embedding of [src/index.ts].  JavaScript strings are modelled
    as [string] (a sequence of 8-bit code units, read as Latin-1), numbers
    that index lists or count glyphs as [nat], signed jump lengths as [Z],
    and the [Map<BlockBranch, string>] of a task as a [gmap] keyed by the
    position of the group in the tree. *)

From Stdlib Require Import ZArith NArith List String Ascii Bool Lia SpecFloat DecimalString.
From stdpp Require Import base option list gmap strings.

Open Scope string_scope.
Open Scope list_scope.
Open Scope nat_scope.

(** ** JavaScript string primitives used by the interpreter *)

Module JS.

Definition dash : ascii := "-"%char.
Definition lt_glyph : ascii := "<"%char.
Definition gt_glyph : ascii := ">"%char.
Definition newline : ascii := "010"%char.

Definition eqc (a b : ascii) : bool := Ascii.eqb a b.

(** [s.replace(/c/g, '')]-style filtering: keep the characters satisfying [p]. *)
Fixpoint filter_chars (p : ascii -> bool) (s : string) : string :=
  match s with
  | EmptyString => EmptyString
  | String c r => if p c then String c (filter_chars p r) else filter_chars p r
  end.

(** [s.includes(c)] for a one-character needle. *)
Fixpoint includes (c : ascii) (s : string) : bool :=
  match s with
  | EmptyString => false
  | String d r => eqc d c || includes c r
  end.

(** [s.split('\n')]: always a non-empty list; [cur] is the segment being
    read, kept as the first component so that the function is structural. *)
Fixpoint split_from (cur : string) (s : string) : list string :=
  match s with
  | EmptyString => [cur]
  | String c r =>
      if eqc c newline then cur :: split_from EmptyString r
      else split_from (cur ++ String c EmptyString) r
  end.

Definition split (s : string) : list string := split_from EmptyString s.

(** [xs.join('\n')]. *)
Fixpoint join (xs : list string) : string :=
  match xs with
  | [] => EmptyString
  | [x] => x
  | x :: r => x ++ String newline (join r)
  end.

(** [xs.pop()] read as a value: the last element, [undefined] on []. *)
Definition pop {A} (xs : list A) : option A := last xs.

(** [xs.slice(0, -1)]. *)
Definition slice_init {A} (xs : list A) : list A := removelast xs.

(** [x || d] for a possibly-undefined string [x]: the empty string is falsy. *)
Definition or_str (x : option string) (d : string) : string :=
  match x with
  | Some EmptyString | None => d
  | Some s => s
  end.

(** [String(b)] for a boolean. *)
Definition of_bool (b : bool) : string := if b then "true" else "false".

End JS.

(** ** Arrows *)

(** [enum ArrowType]; the code computes with the numeric values
    (LEFT_SEND = 0, RIGHT_SEND = 1, LEFT_JUMP = 2, RIGHT_JUMP = 3):
    bit 1 is the direction, bit 2 the action. *)
Definition LEFT_SEND : nat := 0.
Definition RIGHT_SEND : nat := 1.
Definition LEFT_JUMP : nat := 2.
Definition RIGHT_JUMP : nat := 3.

(** [type Arrow = [ArrowType, number, number]]: kind, amount of heads
    (jump length), amount of dashes (importance). *)
Record Arrow := mkArrow { akind : nat; heads : nat; dashes : nat }.

#[global] Instance Arrow_eq_dec : EqDecision Arrow.
Proof. solve_decision. Defined.

Definition non_dash (c : ascii) : bool := negb (JS.eqc c JS.dash).
Definition is_dash (c : ascii) : bool := JS.eqc c JS.dash.

(** [parseArrow(token)], on the token's text. *)
Definition parseArrow (text : string) : Arrow :=
  let stripped := String.length (JS.filter_chars non_dash text) in
  {| akind := (if Nat.eqb stripped 1 then 0 else 1) * 2
              + (if JS.includes JS.lt_glyph text then 0 else 1);
     heads := stripped;
     dashes := String.length (JS.filter_chars is_dash text) |}.

(** The descriptor read off an arrow, as the engine tests it:
    [a[0] % 2] is the direction and [~~(a[0] / 2)] the action. *)
Inductive Direction := TowardLeft | TowardRight.
Inductive Mode := Send | Jump.

Definition direction (a : Arrow) : Direction :=
  if Nat.eqb (akind a mod 2) 0 then TowardLeft else TowardRight.

Definition mode (a : Arrow) : Mode :=
  if Nat.eqb (akind a / 2) 1 then Jump else Send.

(** The final test of the lexer's [append]: [/^(<+-*|-*>+)$/]. *)
Fixpoint all_chars (p : ascii -> bool) (s : string) : bool :=
  match s with
  | EmptyString => true
  | String c r => p c && all_chars p r
  end.

Fixpoint drop_while (p : ascii -> bool) (s : string) : string :=
  match s with
  | EmptyString => EmptyString
  | String c r => if p c then drop_while p r else s
  end.

Definition is_lt (c : ascii) : bool := JS.eqc c JS.lt_glyph.
Definition is_gt (c : ascii) : bool := JS.eqc c JS.gt_glyph.

Definition starts_with (p : ascii -> bool) (s : string) : bool :=
  match s with
  | EmptyString => false
  | String c _ => p c
  end.

(** [<+-*] *)
Definition re_left (s : string) : bool :=
  starts_with is_lt s && all_chars is_dash (drop_while is_lt s).

(** [-*>+] *)
Definition re_right (s : string) : bool :=
  let r := drop_while is_dash s in
  starts_with is_gt r && all_chars is_gt r.

(** [-+>*] *)
Definition re_dash_right (s : string) : bool :=
  starts_with is_dash s && all_chars is_gt (drop_while is_dash s).

(** [>+] *)
Definition re_gts (s : string) : bool :=
  starts_with is_gt s && all_chars is_gt s.

(** [/^(<+-*|-*>+)$/] *)
Definition arrow_final (s : string) : bool := re_left s || re_right s.

(** [/^(<+-*|-+>*|>+)$/] *)
Definition arrow_prefix (s : string) : bool :=
  re_left s || re_dash_right s || re_gts s.

(** Glyph counts, by a direct scan of the run. *)
Fixpoint count_glyphs (p : ascii -> bool) (s : string) : nat :=
  match s with
  | EmptyString => 0
  | String c r => (if p c then 1 else 0) + count_glyphs p r
  end.


(** ** Results of code that may [panic] *)

(** [panic(text)] throws [Error(text)] when the interpreter is used as a
    module; [OutOfFuel] is the model's own answer when a fuel-bounded loop
    is cut short (shown below not to happen for the lexer and the parser). *)
Inductive Result (A : Type) : Type :=
| Ok (a : A)
| Panic (msg : string)
| OutOfFuel.
Arguments Ok {A} a.
Arguments Panic {A} msg.
Arguments OutOfFuel {A}.

Definition bind {A B} (r : Result A) (k : A -> Result B) : Result B :=
  match r with
  | Ok a => k a
  | Panic m => Panic m
  | OutOfFuel => OutOfFuel
  end.

(** ** Lexer *)

Inductive TokenType := INSTANCE | STRING | ARROW | BRACKET.

#[global] Instance TokenType_eq_dec : EqDecision TokenType.
Proof. solve_decision. Defined.

Definition Token : Type := TokenType * string.

Definition code_of (c : ascii) : nat := nat_of_ascii c.

(** [isWhitespace(char)]: [char.trim().length == 0], on the code units the
    model has: TAB, LF, VT, FF, CR, SP and NBSP. *)
Definition isWhitespace (c : ascii) : bool :=
  let n := code_of c in
  ((9 <=? n) && (n <=? 13)) || (n =? 32) || (n =? 160).

(** [char.match(/[0-9]/)] *)
Definition is_digit (c : ascii) : bool :=
  let n := code_of c in (48 <=? n) && (n <=? 57).

(** [char.match(/[<>-]/)] *)
Definition is_arrow_glyph (c : ascii) : bool := is_lt c || is_gt c || is_dash c.

(** [char.match(/[{}]/)] *)
Definition is_brace (c : ascii) : bool :=
  JS.eqc c "{"%char || JS.eqc c "}"%char.

Definition is_quote (c : ascii) : bool := JS.eqc c (ascii_of_nat 34).
Definition is_backslash (c : ascii) : bool := JS.eqc c (ascii_of_nat 92).

Definition char_str (c : ascii) : string := String c EmptyString.

(** The local state of [tokenize]: [tokens], [token] and [backspace]. *)
Record Lexer := mkLexer {
  lx_tokens : list Token;
  lx_token : Token;
  lx_backspace : bool
}.

Definition lx_type (l : Lexer) : TokenType := fst (lx_token l).
Definition lx_text (l : Lexer) : string := snd (lx_token l).

Definition lx_set_type (t : TokenType) (l : Lexer) : Lexer :=
  mkLexer (lx_tokens l) (t, lx_text l) (lx_backspace l).

Definition lx_set_text (s : string) (l : Lexer) : Lexer :=
  mkLexer (lx_tokens l) (lx_type l, s) (lx_backspace l).

Definition lx_push_char (c : ascii) (l : Lexer) : Lexer :=
  lx_set_text (lx_text l ++ char_str c) l.

Definition lx_set_backspace (b : bool) (l : Lexer) : Lexer :=
  mkLexer (lx_tokens l) (lx_token l) b.

(** The inner [append()] of [tokenize]: an arrow candidate that does not
    match [/^(<+-*|-*>+)$/] becomes an INSTANCE; the token is emitted when it
    is a STRING or has text; the current token is reset to [[0, ""]]. *)
Definition lx_append (l : Lexer) : Lexer :=
  let ty := if bool_decide (lx_type l = ARROW) && negb (arrow_final (lx_text l))
            then INSTANCE else lx_type l in
  let emitted := if bool_decide (ty = STRING) || (0 <? String.length (lx_text l))
                 then lx_tokens l ++ [(ty, lx_text l)] else lx_tokens l in
  mkLexer emitted (INSTANCE, EmptyString) (lx_backspace l).

(** One character of the [for] loop; [fuel] bounds the [continue repeat]
    re-dispatches of the same character. *)
Fixpoint lex_char (fuel : nat) (l : Lexer) (c : ascii) : Result Lexer :=
  match fuel with
  | 0 => OutOfFuel
  | S fuel =>
    match lx_type l with
    | INSTANCE =>
        if is_quote c then Ok (lx_set_type STRING (lx_append l))
        else if is_arrow_glyph c then lex_char fuel (lx_set_type ARROW (lx_append l)) c
        else if is_brace c then
          Ok (lx_append (lx_set_text (char_str c) (lx_set_type BRACKET (lx_append l))))
        else if isWhitespace c then Ok (lx_append l)
        else Ok (lx_push_char c l)
    | STRING =>
        if lx_backspace l then Ok (lx_set_backspace false (lx_push_char c l))
        else if is_quote c then Ok (lx_append l)
        else if is_backslash c then Ok (lx_set_backspace true l)
        else Ok (lx_push_char c l)
    | ARROW =>
        if isWhitespace c then Ok (lx_append l)
        else if is_digit c then lex_char fuel (lx_set_type INSTANCE l) c
        else if negb (is_arrow_glyph c) then lex_char fuel (lx_append l) c
        else if negb (arrow_prefix (lx_text l ++ char_str c))
             then lex_char fuel (lx_set_type INSTANCE l) c
        else Ok (lx_push_char c l)
    | BRACKET => Panic "Not implemented."
    end
  end.

(** A character is dispatched at most three times (ARROW, INSTANCE, ARROW). *)
Definition lex_fuel : nat := 4.

Fixpoint lex_chars (l : Lexer) (s : string) : Result Lexer :=
  match s with
  | EmptyString => Ok l
  | String c r => bind (lex_char lex_fuel l c) (fun l' => lex_chars l' r)
  end.

(** [tokenize(string)] *)
Definition tokenize (code : string) : Result (list Token) :=
  bind (lex_chars (mkLexer [] (INSTANCE, EmptyString) false) code) (fun l =>
    if lx_backspace l || bool_decide (lx_type l = STRING)
    then Panic "Unterminated string"
    else Ok (lx_tokens (lx_append l))).

(** ** Blocks *)

(** [class Block] and its three subclasses.  Every block carries its [left]
    and [right] arrow; the [parent] back-reference is the position of the
    block in the tree (see [Cursor] below). *)
#[local] Set Warnings "-register-all".

Inductive Block : Type :=
| BlockBranch (left right : option Arrow) (blocks : list Block) (inner : option Arrow)
| Call (left right : option Arrow) (name : string) (arguments : list string)
| StringBlock (left right : option Arrow) (str : string).

Definition left (b : Block) : option Arrow :=
  match b with
  | BlockBranch l _ _ _ | Call l _ _ _ | StringBlock l _ _ => l
  end.

Definition right (b : Block) : option Arrow :=
  match b with
  | BlockBranch _ r _ _ | Call _ r _ _ | StringBlock _ r _ => r
  end.

Definition set_left (a : option Arrow) (b : Block) : Block :=
  match b with
  | BlockBranch _ r bs i => BlockBranch a r bs i
  | Call _ r n args => Call a r n args
  | StringBlock _ r s => StringBlock a r s
  end.

Definition set_right (a : option Arrow) (b : Block) : Block :=
  match b with
  | BlockBranch l _ bs i => BlockBranch l a bs i
  | Call l _ n args => Call l a n args
  | StringBlock l _ s => StringBlock l a s
  end.

Definition blocks (b : Block) : list Block :=
  match b with
  | BlockBranch _ _ bs _ => bs
  | _ => []
  end.

Definition inner (b : Block) : option Arrow :=
  match b with
  | BlockBranch _ _ _ i => i
  | _ => None
  end.

Definition is_branch (b : Block) : bool :=
  match b with BlockBranch _ _ _ _ => true | _ => false end.

(** ** Parser *)

(** The group under construction in [parse]: [tree.blocks] and [tree.inner].
    ([stack] only ever holds [tree]: nothing pushes to it.) *)
Record Tree := mkTree { t_blocks : list Block; t_inner : option Arrow }.

(** Replace the last element of a list (a field update on [blocks[length-1]]). *)
Definition update_last {A} (f : A -> A) (xs : list A) : list A :=
  match last xs with
  | Some x => removelast xs ++ [f x]
  | None => xs
  end.

(** The inner [append(token)] of [parse]. *)
Definition tree_append (b : Block) (t : Tree) : Tree :=
  let l := match last (t_blocks t) with
           | Some prev => right prev
           | None => t_inner t
           end in
  mkTree (t_blocks t ++ [set_left l b]) (t_inner t).

(** The scan for the matching '}' : [level] counts open brackets; the result
    is the tokens before the matching bracket and those after it. *)
Fixpoint find_close (tokens : list Token) (level : nat) : option (list Token * list Token) :=
  match tokens with
  | [] => None
  | tok :: rest =>
      if bool_decide (fst tok = BRACKET) then
        if String.eqb (snd tok) "{" then
          option_map (fun p => (tok :: fst p, snd p)) (find_close rest (S level))
        else
          match level with
          | 0 => Some ([], rest)
          | S level' => option_map (fun p => (tok :: fst p, snd p)) (find_close rest level')
          end
      else option_map (fun p => (tok :: fst p, snd p)) (find_close rest level)
  end.

(** [x || d] for a possibly-undefined number: 0 is falsy. *)
Definition or_num (x : option nat) (d : nat) : nat :=
  match x with
  | Some 0 | None => d
  | Some n => n
  end.

(** [v / 2 < 0.7] on a natural number, cleared of denominators. *)
Definition half_below_0_7 (v : nat) : bool := 10 * v <? 14.

(** The boundary checks at the end of [parse]. *)
Definition validate (t : Tree) : Result Block :=
  match t_blocks t with
  | [] => Ok (BlockBranch None None (t_blocks t) (t_inner t))
  | first :: _ =>
      let first_left := option_map akind (left first) in
      let last_right := option_map akind (last (t_blocks t) ≫= right) in
      if half_below_0_7 (or_num first_left 2) || half_below_0_7 (or_num last_right 2)
      then Panic "Non-jump arrow at block border"
      else if or_num first_left 0 mod 2 =? 1
      then Panic "Right arrow at left block border"
      else if or_num last_right 1 mod 2 =? 0
      then Panic "Left arrow at right block border"
      else Ok (BlockBranch None None (t_blocks t) (t_inner t))
  end.

Definition last_right_is_null (t : Tree) : bool :=
  match last (t_blocks t) with
  | Some b => bool_decide (right b = None)
  | None => false
  end.

(** The token loop of [parse]; [fuel] bounds the nesting of recursive calls
    on bracketed spans. *)
Fixpoint parse_loop (fuel : nat) (tokens : list Token) (t : Tree) : Result Block :=
  match fuel with
  | 0 => OutOfFuel
  | S fuel =>
    match tokens with
    | [] => validate t
    | tok :: rest =>
      match fst tok with
      | BRACKET =>
          if last_right_is_null t then Panic "Token after block"
          else if String.eqb (snd tok) "{" then
            match find_close rest 0 with
            | None => Panic "Unterminated block"
            | Some ([], _) => Panic "Empty block"
            | Some (span, after) =>
                bind (parse_loop fuel span (mkTree [] None)) (fun sub =>
                  parse_loop fuel after (tree_append sub t))
            end
          else Panic "Top-level block cannot be closed with '}'"
      | ARROW =>
          match last (t_blocks t) with
          | None =>
              match t_inner t with
              | Some _ => Panic "Arrow cannot go after another arrow"
              | None => parse_loop fuel rest (mkTree (t_blocks t) (Some (parseArrow (snd tok))))
              end
          | Some block =>
              match right block with
              | Some _ => Panic "Arrow cannot go after another arrow"
              | None =>
                  parse_loop fuel rest
                    (mkTree (update_last (set_right (Some (parseArrow (snd tok)))) (t_blocks t))
                            (t_inner t))
              end
          end
      | STRING | INSTANCE =>
          if bool_decide (t_blocks t = []) || negb (last_right_is_null t) then
            let block := if bool_decide (fst tok = STRING)
                         then StringBlock None None (snd tok)
                         else Call None None (snd tok) [] in
            parse_loop fuel rest (tree_append block t)
          else
            match last (t_blocks t) with
            | Some (StringBlock l r s) =>
                parse_loop fuel rest
                  (mkTree (update_last (fun _ => StringBlock l r (s ++ String JS.newline (snd tok)))
                                       (t_blocks t)) (t_inner t))
            | Some (Call l r n args) =>
                parse_loop fuel rest
                  (mkTree (update_last (fun _ => Call l r n (args ++ [snd tok])) (t_blocks t))
                          (t_inner t))
            | _ => Panic "Token after block"
            end
      end
    end
  end.

(** [parse(tokens)] *)
Definition parse (tokens : list Token) : Result Block :=
  parse_loop (S (length tokens)) tokens (mkTree [] None).

(** The top-level check of [sendhelp], after [parse(tokenize(code))]. *)
Definition top_level_check (file : Block) : Result Block :=
  if bool_decide (left file <> None) || bool_decide (right file <> None)
     || bool_decide (inner file <> None)
     || match last (blocks file) with
        | Some b => bool_decide (right b <> None)
        | None => false
        end
  then Panic "Arrows are not allowed at top-level block"
  else Ok file.

(** The front end of [sendhelp]: the tree the engine is started on. *)
Definition load (code : string) : Result Block :=
  bind (tokenize code) (fun tokens => bind (parse tokens) top_level_check).

(** ** Positions in the tree *)

(** A block is named by its position: the indices from the block up to the
    top-level group, innermost first.  [Block.parent] is the tail of the
    position, [parent.blocks.indexOf(block)] its head, and the top-level
    group (the only block without a parent) is []. *)
Definition Cursor : Type := list nat.

Fixpoint subblock (b : Block) (path : list nat) : option Block :=
  match path with
  | [] => Some b
  | i :: rest =>
      match nth_error (blocks b) i with
      | Some b' => subblock b' rest
      | None => None
      end
  end.

Definition block_at (file : Block) (c : Cursor) : option Block :=
  subblock file (rev c).

Definition siblings (file : Block) (up : Cursor) : list Block :=
  match block_at file up with
  | Some b => blocks b
  | None => []
  end.

(** The three ways [getBlockOf] ends: a block, a falsy value ([null], or the
    [undefined] read from an empty group), or a TypeError raised by
    [current.parent] on [undefined]. *)
Inductive GResult :=
| GBlock (c : Cursor)
| GNull
| GThrow.

(** The inner [while] of [getBlockOf]: leave every group in which the
    current block is the last (first) member; [None] is [return null]. *)
Fixpoint climb (file : Block) (rightward : bool) (c : Cursor) : option Cursor :=
  match c with
  | [] => None
  | me :: up =>
      if (if rightward then me =? length (siblings file up) - 1 else me =? 0)
      then climb file rightward up
      else Some c
  end.

(** [while (current instanceof BlockBranch) current = current.blocks[...]]:
    the first (last) leaf below a block; [None] is [undefined]. *)
Fixpoint descend (rightward : bool) (b : Block) (c : Cursor) : option Cursor :=
  match b with
  | BlockBranch _ _ bs _ =>
      if rightward then
        match bs with
        | [] => None
        | b' :: _ => descend rightward b' (0 :: c)
        end
      else
        (fix to_last (l : list Block) (i : nat) : option Cursor :=
           match l with
           | [] => None
           | x :: r =>
               match r with
               | [] => descend rightward x (i :: c)
               | _ :: _ => to_last r (S i)
               end
           end) bs 0
  | _ => Some c
  end.

(** The [for] loop of [getBlockOf], [n] iterations left. *)
Fixpoint hop (file : Block) (rightward one : bool) (n : nat) (current : Cursor) : GResult :=
  match n with
  | 0 => GBlock current
  | S n' =>
      match climb file rightward current with
      | None | Some [] => GNull
      | Some (me :: up) =>
          let next := (if rightward then me + 1 else me - 1) :: up in
          if one then GBlock next
          else
            match block_at file next ≫= (fun b => descend rightward b next) with
            | Some leaf => hop file rightward one n' leaf
            | None => match n' with 0 => GNull | S _ => GThrow end
            end
      end
  end.

(** [FakeProcess.getBlockOf(target, shift)] *)
Definition getBlockOf (file : Block) (target : Cursor) (shift : Z) : GResult :=
  match target with
  | [] => GNull
  | _ :: _ =>
      hop file (0 <? shift)%Z (Z.abs shift =? 1)%Z (Z.abs_nat shift) target
  end.

(** [BlockBranch.beginBlockIndex]: a member is left out when one of its
    borders holds a send arrow that points into it. *)
Definition points_in (arrow : option Arrow) (i : nat) : bool :=
  match arrow with
  | Some a => negb (akind a mod 2 =? i) && negb (akind a / 2 =? 1)
  | None => false
  end.

Fixpoint begin_from (i : nat) (bs : list Block) : list nat :=
  match bs with
  | [] => []
  | b :: r =>
      if points_in (left b) 0 || points_in (right b) 1
      then begin_from (S i) r
      else i :: begin_from (S i) r
  end.

Definition beginBlockIndex (b : Block) : list nat := begin_from 0 (blocks b).

(** ** Numbers of the host language *)

(** The conversions and the arithmetic of JavaScript numbers that the
    built-in commands use.  None of them throws. *)
Class JSNumber := {
  num : Type;
  Number : string -> num;          (* Number(s) *)
  num_zero : num;                  (* the literal 0 *)
  num_add : num -> num -> num;     (* a + b *)
  num_div : num -> num -> num;     (* a / b *)
  num_rem : num -> num -> num;     (* a % b *)
  num_String : num -> string       (* String(x) *)
}.

(** ** Extensions *)

(** [Command.execute]: [inr] the awaited result, [inl] the error it throws. *)
Definition Command : Type := string -> list string -> string + string.

Record Extension := mkExtension {
  ext_name : string;
  ext_version : string;
  commands : gmap string Command
}.

(** [const extensions : Extension[] = []] *)
Definition extensions : list Extension := [].

(** [export function extend() {}], as a transformer of the registry. *)
Definition extend (registry : list Extension) : list Extension := registry.

(** The [for] loop of the [default] case: the first extension that owns the
    command name. *)
Fixpoint find_command (registry : list Extension) (name : string) : option Command :=
  match registry with
  | [] => None
  | e :: rest =>
      match commands e !! name with
      | Some cmd => Some cmd
      | None => find_command rest name
      end
  end.

(** ** The state shared by all tasks of a run *)

Record World := mkWorld {
  storage : string;          (* FakeProcess.storage *)
  output : string;           (* the [output] of a batch run *)
  console : list string;     (* what a live run hands to console.log / alert *)
  asked : nat                (* input requests made so far *)
}.

Definition World0 : World := mkWorld "" "" [] 0.

Definition set_storage (s : string) (w : World) : World :=
  mkWorld s (output w) (console w) (asked w).

(** The sink of a top-level [print]. *)
Definition emit (live : bool) (s : string) (w : World) : World :=
  if live then mkWorld (storage w) (output w) (console w ++ [s]) (asked w)
  else mkWorld (storage w) (output w +:+ s) (console w) (asked w).

Definition bump_asked (w : World) : World :=
  mkWorld (storage w) (output w) (console w) (S (asked w)).

(** [map.get(k) || ''] *)
Definition get_or_empty (m : gmap Cursor string) (k : Cursor) : string :=
  default "" (m !! k).

(** [b.forEach((v, k) => a.set(k, (a.get(k) || '') + v))] *)
Definition merge_into (a b : gmap Cursor string) : gmap Cursor string :=
  union_with (fun x y : string => Some (x +:+ y)) a b.

(** ** Built-in commands *)

Section Engine.

Context {js : JSNumber}.

(** [live], the mode flag of [sendhelp]. *)
Variable live : bool.

(** The input collaborator: the line it hands to the n-th request. *)
Variable answers : nat -> string.

(** [Number(this.block.arguments[0] || 0)] *)
Definition divisor (arguments : list string) : num :=
  match arguments with
  | [] => num_zero
  | a :: _ => if String.eqb a "" then num_zero else Number a
  end.

(** The bodies of the two [try] blocks.  [inl] would be a thrown exception:
    [Number], [/], [%] and [String] return normally on every input. *)
Definition div_body (stream : string) (arguments : list string) : string + string :=
  inr (num_String (num_div (Number stream) (divisor arguments))).

Definition mod_body (stream : string) (arguments : list string) : string + string :=
  inr (num_String (num_rem (Number stream) (divisor arguments))).

(** [try { stream = body } catch (_) { stream = 'NaN' }] *)
Definition try_or_NaN (body : string + string) : string :=
  match body with
  | inr v => v
  | inl _ => "NaN"
  end.

Definition div_builtin (stream : string) (arguments : list string) : string :=
  try_or_NaN (div_body stream arguments).

Definition mod_builtin (stream : string) (arguments : list string) : string :=
  try_or_NaN (mod_body stream arguments).

Definition sum_builtin (stream : string) (arguments : list string) : string :=
  num_String (fold_left num_add (Number stream :: map Number arguments) num_zero).

(** [FakeProcess.storage += '\n' + [stream, ...arguments].join('\n')] *)
Definition loop_builtin (stream : string) (arguments : list string) (w : World) : World :=
  set_storage (storage w +:+ String JS.newline (JS.join (stream :: arguments))) w.

(** The new stream and the new storage of [pop]. *)
Definition pop_builtin (w : World) : string * World :=
  (JS.or_str (JS.pop (JS.split (storage w))) "",
   set_storage (JS.join (JS.slice_init (JS.split (storage w)))) w).

Definition done_builtin (w : World) : string :=
  JS.of_bool (String.length (storage w) =? 0).

(** [print]: into the map under the enclosing group when that group has a
    parent, to the output sink otherwise. *)
Definition print_builtin (c : Cursor) (stream : string) (arguments : list string)
    (m : gmap Cursor string) (w : World) : gmap Cursor string * World :=
  let text := JS.join arguments +:+ stream in
  match c with
  | _ :: ((_ :: _) as parent) => (<[parent := get_or_empty m parent +:+ text]> m, w)
  | _ => (m, emit live text w)
  end.

Definition builtin_names : list string :=
  ["nothing"; "input"; "equals"; "sum"; "div"; "mod"; "loop"; "pop"; "done"; "print"].

(** What the [switch (this.block.name)] does up to its first [await]. *)
Inductive Dispatch :=
| Settled (stream : string) (m : gmap Cursor string) (w : World)
| NeedInput (prompt : string)
| NeedExtension (result : string + string).

Definition dispatch (registry : list Extension) (c : Cursor) (name : string)
    (arguments : list string) (stream : string) (m : gmap Cursor string) (w : World)
  : Dispatch :=
  if String.eqb name "nothing" then Settled "" m w
  else if String.eqb name "input" then NeedInput (stream +:+ JS.join arguments)
  else if String.eqb name "equals" then
    Settled (JS.of_bool (String.eqb stream (JS.join arguments))) m w
  else if String.eqb name "sum" then Settled (sum_builtin stream arguments) m w
  else if String.eqb name "div" then Settled (div_builtin stream arguments) m w
  else if String.eqb name "mod" then Settled (mod_builtin stream arguments) m w
  else if String.eqb name "loop" then Settled stream m (loop_builtin stream arguments w)
  else if String.eqb name "pop" then Settled (fst (pop_builtin w)) m (snd (pop_builtin w))
  else if String.eqb name "done" then Settled (done_builtin w) m w
  else if String.eqb name "print" then
    Settled stream (fst (print_builtin c stream arguments m w))
            (snd (print_builtin c stream arguments m w))
  else
    match find_command registry name with
    | Some cmd => NeedExtension (cmd stream arguments)
    | None => Settled stream m w
    end.

(** ** The next move *)

(** An arrow on the left border that points left, on the right border that
    points right: [a && a[0] % 2 == i]. *)
Definition outward (i : nat) (arrow : option Arrow) : option Arrow :=
  match arrow with
  | Some a => if akind a mod 2 =? i then Some a else None
  | None => None
  end.

Definition has_outward (b : Block) : bool :=
  match outward 0 (left b), outward 1 (right b) with
  | None, None => false
  | _, _ => true
  end.

(** The walk up of the first branch: [Some c'] is the [break check] at the
    ancestor [c'], [None] the [return map]. *)
Fixpoint ascend (file : Block) (ending : option Cursor) (c : Cursor) : option Cursor :=
  match c with
  | [] => None
  | _ :: up =>
      if bool_decide (ending = Some up) then None
      else
        match block_at file up with
        | Some b => if has_outward b then Some up else ascend file ending up
        | None => None
        end
  end.

Inductive Next :=
| Exit                       (* return map *)
| Goto (c : Cursor)          (* this.block = block, then await setTimeout() *)
| Fork (first second : GResult)   (* return await Promise.all([of(..), of(..)]) *)
| Crash.                     (* a TypeError leaves getBlockOf *)

Record Outcome := mkOutcome {
  o_stream : string;                     (* the stream after the move *)
  o_detached : option (Cursor * string); (* the process started by desyncOf *)
  o_next : Next
}.

Definition next_of (g : GResult) : Next :=
  match g with
  | GBlock c => Goto c
  | GNull => Exit
  | GThrow => Crash
  end.

(** [(a > b ? -1 : 1) * (stream == 'true' ? 1 : -1)] *)
Definition side (wl wr : nat) (stream : string) : Z :=
  Z.mul (if Nat.ltb wr wl then -1 else 1) (if String.eqb stream "true" then 1 else -1).

(** The move that ends an iteration of [run], for the block [b] at [c]. *)
Definition resolve (file : Block) (ending : option Cursor) (c : Cursor) (b : Block)
    (stream : string) (m : gmap Cursor string) : Outcome :=
  match outward 0 (left b), outward 1 (right b) with
  | None, None =>
      match ascend file ending c with
      | None => mkOutcome stream None Exit
      | Some c' =>
          let b' := default b (block_at file c') in
          let stream' := stream +:+ get_or_empty m c' in
          match outward 0 (left b'), outward 1 (right b') with
          | None, None => mkOutcome stream None Exit
          | Some l, Some r =>
              if negb (dashes l =? dashes r) then
                let point := if (0 <? side (dashes l) (dashes r) stream')%Z
                             then Z.of_nat (heads r)
                             else (Z.of_nat (heads l) * -1)%Z in
                mkOutcome stream' None (next_of (getBlockOf file c' point))
              else
                let g := getBlockOf file c' (Z.of_nat (dashes l)) in
                mkOutcome stream'
                  (match g with GBlock t => Some (t, stream') | _ => None end)
                  (next_of g)
          | Some a, None | None, Some a =>
              mkOutcome stream' None (next_of (getBlockOf file c' (Z.of_nat (dashes a))))
          end
      end
  | Some l, Some r =>
      if dashes l =? dashes r then
        mkOutcome stream None
          (Fork (getBlockOf file c (1 * Z.of_nat (dashes l)))
                (getBlockOf file c (-1 * Z.of_nat (dashes r))))
      else
        let s := side (dashes l) (dashes r) stream in
        mkOutcome stream None
          (next_of (getBlockOf file c
             (s * Z.of_nat (heads (if (s =? -1)%Z then l else r)))))
  | Some l, None =>
      mkOutcome stream None (next_of (getBlockOf file c (-1 * Z.of_nat (heads l))))
  | None, Some r =>
      mkOutcome stream None (next_of (getBlockOf file c (1 * Z.of_nat (heads r))))
  end.

(** ** Tasks *)

(** Where a [run] stands between two of its [await]s. *)
Inductive Phase :=
| Ready                                 (* at the top of [while (true)] *)
| AwaitGroup (children : list nat)      (* await Promise.all(beginBlocks.map(run)) *)
| AwaitInput (ticket : nat)             (* await input(...) *)
| AwaitExtension (result : string + string)  (* await execute(stream, arguments) *)
| AwaitFork (children : list (option nat))   (* return await Promise.all([of, of]) *)
| Returned (m : gmap Cursor string)     (* the promise of [run] is resolved *)
| Thrown.                               (* the promise of [run] is rejected *)

(** A [FakeProcess] with the locals of its [run].  The [id] of a process and
    the [freeID] counter only feed the debug log ([isDebug]) and are left
    out, as is the log itself. *)
Record Task := mkTask {
  block : Cursor;
  endingBlock : option Cursor;
  stream : string;
  tmap : gmap Cursor string;
  phase : Phase
}.

(** [new FakeProcess(block)]: [endingBlock] is [block.parent]. *)
Definition new_process (c : Cursor) : Task :=
  mkTask c (match c with [] => None | _ :: up => Some up end) "" ∅ Ready.

(** The process of [desyncOf]: it starts from [stream] and has no ending block. *)
Definition detached_process (c : Cursor) (s : string) : Task :=
  mkTask c None s ∅ Ready.

Definition set_phase (p : Phase) (t : Task) : Task :=
  mkTask (block t) (endingBlock t) (stream t) (tmap t) p.

(** The tasks of a run, named by their index, and the state they share. *)
Record Config := mkConfig { world : World; tasks : list Task }.

Definition returned (ts : list Task) (i : nat) : option (gmap Cursor string) :=
  match ts !! i with
  | Some t => match phase t with Returned m => Some m | _ => None end
  | None => None
  end.

Definition thrown (ts : list Task) (i : nat) : bool :=
  match ts !! i with
  | Some t => match phase t with Thrown => true | _ => false end
  | None => false
  end.

(** [FakeProcess.of(target, shift)], once [getBlockOf] has answered: the
    process it starts, if any. *)
Definition of_process (g : GResult) : list Task :=
  match g with
  | GBlock c => [new_process c]
  | _ => []
  end.

Definition of_handle (g : GResult) (id : nat) : option nat :=
  match g with
  | GBlock _ => Some id
  | _ => None
  end.

Definition is_throw (g : GResult) : bool :=
  match g with GThrow => true | _ => false end.

(** The end of an iteration of task [i]: the move is resolved on the stream,
    the map and the world the block has left behind. *)
Definition settle (file : Block) (cfg : Config) (i : nat) (t : Task) (b : Block)
    (s : string) (m : gmap Cursor string) (w : World) : Config :=
  let o := resolve file (endingBlock t) (block t) b s m in
  let ts := tasks cfg ++ match o_detached o with
                         | Some (c, s') => [detached_process c s']
                         | None => []
                         end in
  match o_next o with
  | Exit =>
      mkConfig w (<[i := mkTask (block t) (endingBlock t) (o_stream o) m (Returned m)]> ts)
  | Goto c' =>
      mkConfig w (<[i := mkTask c' (endingBlock t) (o_stream o) m Ready]> ts)
  | Crash =>
      mkConfig w (<[i := mkTask (block t) (endingBlock t) (o_stream o) m Thrown]> ts)
  | Fork g1 g2 =>
      let id1 := length ts in
      let id2 := length (ts ++ of_process g1) in
      let after := if is_throw g1 || is_throw g2 then Thrown
                   else AwaitFork [of_handle g1 id1; of_handle g2 id2] in
      mkConfig w (<[i := mkTask (block t) (endingBlock t) (o_stream o) m after]> ts
                  ++ of_process g1 ++ of_process g2)
  end.

(** [maps.reduce((a, b) => merge b into a, new Map())] *)
Definition merge_all (maps : list (gmap Cursor string)) : gmap Cursor string :=
  fold_left merge_into maps ∅.

(** One atomic segment of task [i], from one [await] to the next; [None]
    when the task does not exist, has ended, or still waits.  A process that
    JavaScript starts inside the segment of its parent (and runs up to its
    first [await] there) is added to the pool as a [Ready] task: the
    schedules of the pool include the one that runs it at once. *)
Definition step (file : Block) (i : nat) (cfg : Config) : option Config :=
  t ← tasks cfg !! i;
  b ← block_at file (block t);
  match phase t with
  | Ready =>
      match b with
      | BlockBranch _ _ _ _ =>
          let kids := map (fun k => new_process (k :: block t)) (beginBlockIndex b) in
          let ids := seq (length (tasks cfg)) (length kids) in
          Some (mkConfig (world cfg)
                  (<[i := set_phase (AwaitGroup ids) t]> (tasks cfg) ++ kids))
      | Call _ _ name arguments =>
          match dispatch extensions (block t) name arguments (stream t) (tmap t) (world cfg) with
          | Settled s m w => Some (settle file cfg i t b s m w)
          | NeedInput _ =>
              Some (mkConfig (bump_asked (world cfg))
                      (<[i := set_phase (AwaitInput (asked (world cfg))) t]> (tasks cfg)))
          | NeedExtension r =>
              Some (mkConfig (world cfg) (<[i := set_phase (AwaitExtension r) t]> (tasks cfg)))
          end
      | StringBlock _ _ str =>
          Some (settle file cfg i t b (stream t +:+ str) (tmap t) (world cfg))
      end
  | AwaitGroup ids =>
      if existsb (thrown (tasks cfg)) ids
      then Some (mkConfig (world cfg) (<[i := set_phase Thrown t]> (tasks cfg)))
      else
        maps ← mapM (returned (tasks cfg)) ids;
        Some (settle file cfg i t b
                (stream t +:+ get_or_empty (merge_all maps) (block t)) (tmap t) (world cfg))
  | AwaitInput k =>
      Some (settle file cfg i t b (answers k) (tmap t) (world cfg))
  | AwaitExtension (inr r) =>
      Some (settle file cfg i t b (stream t +:+ r) (tmap t) (world cfg))
  | AwaitExtension (inl _) =>
      Some (mkConfig (world cfg) (<[i := set_phase Thrown t]> (tasks cfg)))
  | AwaitFork handles =>
      if existsb (fun h => match h with Some id => thrown (tasks cfg) id | None => false end)
                 handles
      then Some (mkConfig (world cfg) (<[i := set_phase Thrown t]> (tasks cfg)))
      else
        maps ← mapM (fun h => match h with
                              | Some id => returned (tasks cfg) id
                              | None => Some ∅
                              end) handles;
        match maps with
        | [] => None
        | first :: rest =>
            let m := merge_into (tmap t) (fold_left merge_into rest first) in
            Some (mkConfig (world cfg)
                    (<[i := mkTask (block t) (endingBlock t) (stream t) m (Returned m)]>
                       (tasks cfg)))
        end
  | Returned _ | Thrown => None
  end.

(** A schedule names, segment by segment, the task that runs next. *)
Fixpoint run (file : Block) (schedule : list nat) (cfg : Config) : option Config :=
  match schedule with
  | [] => Some cfg
  | i :: rest => step file i cfg ≫= run file rest
  end.

(** [FakeProcess.running]: the runs whose promise is not resolved yet. *)
Definition is_returned (t : Task) : bool :=
  match phase t with Returned _ => true | _ => false end.

Definition running (cfg : Config) : nat :=
  length (List.filter (fun t => negb (is_returned t)) (tasks cfg)).

(** The driver: the begin blocks of the file are started in the order the
    shuffle leaves them in. *)
Definition start (order : list nat) : Config :=
  mkConfig World0 (map (fun i => new_process [i]) order).

(** [sendhelp(code, live)] resolves with [out]: the program is accepted, the
    begin blocks are started in some order, and some schedule of the tasks
    brings [FakeProcess.running] back to 0. *)
Definition sendhelp (code : string) (out : option string) : Prop :=
  exists file order schedule cfg,
    load code = Ok file /\
    Permutation order (beginBlockIndex file) /\
    run file schedule (start order) = Some cfg /\
    running cfg = 0 /\
    out = if live then None else Some (output (world cfg)).

End Engine.

(** ** A reference instance of the host numbers

    IEEE 754 binary64 as [spec_float], with the string conversions of
    ECMAScript: [StringToNumber] for [Number(s)] and [Number::toString]
    (radix 10) for [String(x)].  It is used to run the built-ins on concrete
    inputs; the statements about the engine hold for every [JSNumber]. *)

Module Float64.

Definition prec : Z := 53.
Definition emax : Z := 1024.

(** The binary64 nearest to [p / q] (ties to even), signed by [s]. *)
Definition round_ratio (s : bool) (p q : positive) : spec_float :=
  let '(m, e, l) := SFdiv_core_binary prec emax (Zpos p) 0 (Zpos q) 0 in
  binary_round_aux prec emax s m e l.

(** The binary64 nearest to [m * 10 ^ e], signed by [s]. *)
Definition of_decimal (s : bool) (m : N) (e : Z) : spec_float :=
  match m with
  | N0 => S754_zero s
  | Npos p =>
      match e with
      | Z0 => binary_round prec emax s p 0
      | Zpos k => binary_round prec emax s (p * Pos.pow 10 k) 0
      | Zneg k => round_ratio s p (Pos.pow 10 k)
      end
  end.

(** *** [Number(s)] *)

Definition digit_in (base : N) (c : ascii) : option N :=
  let n := N_of_ascii c in
  let v := if (48 <=? n)%N && (n <=? 57)%N then Some (n - 48)%N
           else if (97 <=? n)%N && (n <=? 102)%N then Some (n - 87)%N
           else if (65 <=? n)%N && (n <=? 70)%N then Some (n - 55)%N
           else None in
  match v with
  | Some d => if (d <? base)%N then Some d else None
  | None => None
  end.

(** The longest run of digits at the head of [s], read onto [acc]: the value,
    the number of digits read, and the rest of the string. *)
Fixpoint take_digits (base : N) (s : string) (acc : N) (count : nat) : N * nat * string :=
  match s with
  | EmptyString => (acc, count, s)
  | String c r =>
      match digit_in base c with
      | Some d => take_digits base r (acc * base + d)%N (S count)
      | None => (acc, count, s)
      end
  end.

Fixpoint drop_space (s : string) : string :=
  match s with
  | EmptyString => s
  | String c r => if isWhitespace c then drop_space r else s
  end.

Fixpoint rev_string (s : string) (acc : string) : string :=
  match s with
  | EmptyString => acc
  | String c r => rev_string r (String c acc)
  end.

Definition trim (s : string) : string :=
  rev_string (drop_space (rev_string (drop_space s) EmptyString)) EmptyString.

(** [ExponentPart_opt] followed by the end of the literal. *)
Definition exponent_part (s : string) : option Z :=
  match s with
  | EmptyString => Some 0%Z
  | String c r =>
      if JS.eqc c "e"%char || JS.eqc c "E"%char then
        let '(neg, r') := match r with
                          | String "-"%char t => (true, t)
                          | String "+"%char t => (false, t)
                          | _ => (false, r)
                          end in
        match take_digits 10 r' 0%N 0 with
        | (_, 0, _) => None
        | (v, S _, EmptyString) => Some (if neg then (- Z.of_N v)%Z else Z.of_N v)
        | _ => None
        end
      else None
  end.

(** [StrUnsignedDecimalLiteral], signed by [s]. *)
Definition unsigned_decimal (s : bool) (text : string) : spec_float :=
  if String.eqb text "Infinity" then S754_infinity s
  else
    let '(ip, ni, r1) := take_digits 10 text 0%N 0 in
    let '(m, nf, r2) := match r1 with
                        | String "."%char t => take_digits 10 t ip 0
                        | _ => (ip, 0, r1)
                        end in
    match ni + nf with
    | 0 => S754_nan
    | S _ =>
        match exponent_part r2 with
        | Some e => of_decimal s m (e - Z.of_nat nf)
        | None => S754_nan
        end
    end.

(** [NonDecimalIntegerLiteral] after its two-character prefix. *)
Definition non_decimal (base : N) (text : string) : spec_float :=
  match take_digits base text 0%N 0 with
  | (_, 0, _) => S754_nan
  | (v, S _, EmptyString) => of_decimal false v 0
  | _ => S754_nan
  end.

(** [StringToNumber] *)
Definition Number (s : string) : spec_float :=
  match trim s with
  | EmptyString => S754_zero false
  | String "0"%char (String "x"%char r) | String "0"%char (String "X"%char r) => non_decimal 16 r
  | String "0"%char (String "o"%char r) | String "0"%char (String "O"%char r) => non_decimal 8 r
  | String "0"%char (String "b"%char r) | String "0"%char (String "B"%char r) => non_decimal 2 r
  | String "-"%char r => unsigned_decimal true r
  | String "+"%char r => unsigned_decimal false r
  | t => unsigned_decimal false t
  end.

(** *** [a % b] *)

Definition rem (x y : spec_float) : spec_float :=
  match x, y with
  | S754_nan, _ | _, S754_nan => S754_nan
  | S754_infinity _, _ => S754_nan
  | _, S754_zero _ => S754_nan
  | _, S754_infinity _ => x
  | S754_zero _, _ => x
  | S754_finite sx mx ex, S754_finite _ my ey =>
      let e := Z.min ex ey in
      let r := Z.rem (Z.shiftl (Zpos mx) (ex - e)) (Z.shiftl (Zpos my) (ey - e)) in
      match r with
      | Z0 => S754_zero sx
      | _ => binary_normalize prec emax (cond_Zopp sx r) e false
      end
  end.

(** *** [String(x)] *)

Definition decimal (n : N) : string := NilZero.string_of_uint (N.to_uint n).

Fixpoint zeros (n : nat) : string :=
  match n with
  | 0 => EmptyString
  | S n' => String "0"%char (zeros n')
  end.

(** The least [j >= 1] with [a * 10 ^ j >= b], for [a < b]. *)
Fixpoint scale_up (fuel : nat) (a b : positive) (j : nat) : nat :=
  match fuel with
  | 0 => j
  | S fuel' => if (b <=? a * 10)%positive then j else scale_up fuel' (a * 10)%positive b (S j)
  end.

(** [n] with [10 ^ (n - 1) <= a / b < 10 ^ n]. *)
Definition magnitude (a b : positive) : Z :=
  if (b <=? a)%positive then Z.of_nat (String.length (decimal (Npos a / Npos b)))
  else (1 - Z.of_nat (scale_up 400 a b 1))%Z.

(** The [k]-digit candidates next to [a / b]: the integers around
    [a / b / 10 ^ (n - k)], the nearer one first (the even one on a tie). *)
Definition candidates (a b : positive) (n : Z) (k : nat) : list N :=
  let d := (n - Z.of_nat k)%Z in
  let '(p, q) := match d with
                 | Z0 => (a, b)
                 | Zpos e => (a, (b * Pos.pow 10 e)%positive)
                 | Zneg e => ((a * Pos.pow 10 e)%positive, b)
                 end in
  let lo := (Npos p / Npos q)%N in
  let r := (Npos p mod Npos q)%N in
  match (2 * r ?= Npos q)%N with
  | Lt => [lo; (lo + 1)%N]
  | Gt => [(lo + 1)%N; lo]
  | Eq => if N.even lo then [lo; (lo + 1)%N] else [(lo + 1)%N; lo]
  end.

(** The shortest digits that read back as [x]: [k] grows from [k] on. *)
Fixpoint shortest (fuel : nat) (x : spec_float) (a b : positive) (n : Z) (k : nat)
  : N * Z :=
  let d := (n - Z.of_nat k)%Z in
  let hits := List.filter (fun s => SFeqb (of_decimal false s d) x) (candidates a b n k) in
  match hits, fuel with
  | s :: _, _ => (s, d)
  | [], S fuel' => shortest fuel' x a b n (S k)
  | [], 0 => (0%N, d)
  end.

Fixpoint strip_zeros (fuel : nat) (s : N) (d : Z) : N * Z :=
  match fuel with
  | 0 => (s, d)
  | S fuel' => if (0 <? s)%N && (s mod 10 =? 0)%N then strip_zeros fuel' (s / 10)%N (d + 1)%Z
               else (s, d)
  end.

Definition substring_from (i : nat) (s : string) : string :=
  String.substring i (String.length s - i) s.

(** The layout of the digits [ds] (there are [k] of them) for the decimal
    point position [n]. *)
Definition layout (ds : string) (n : Z) : string :=
  let k := Z.of_nat (String.length ds) in
  if ((-5 <=? n) && (n <=? 21))%Z then
    if (k <=? n)%Z then ds +:+ zeros (Z.to_nat (n - k))
    else if (0 <? n)%Z then
      String.substring 0 (Z.to_nat n) ds +:+ "." +:+ substring_from (Z.to_nat n) ds
    else "0." +:+ zeros (Z.to_nat (- n)) +:+ ds
  else
    let e := (n - 1)%Z in
    let tail := "e" +:+ (if (e <? 0)%Z then "-" else "+") +:+ decimal (Z.to_N (Z.abs e)) in
    if (k =? 1)%Z then ds +:+ tail
    else String.substring 0 1 ds +:+ "." +:+ substring_from 1 ds +:+ tail.

Definition positive_to_string (x : spec_float) (m : positive) (e : Z) : string :=
  let '(a, b) := match e with
                 | Z0 => (m, 1%positive)
                 | Zpos p => ((m * Pos.pow 2 p)%positive, 1%positive)
                 | Zneg p => (m, Pos.pow 2 p)
                 end in
  let n := magnitude a b in
  let '(s, d) := shortest 17 x a b n 1 in
  let '(s', d') := strip_zeros 30 s d in
  let ds := decimal s' in
  layout ds (d' + Z.of_nat (String.length ds)).

(** [Number::toString(x)] *)
Definition to_string (x : spec_float) : string :=
  match x with
  | S754_nan => "NaN"
  | S754_zero _ => "0"
  | S754_infinity false => "Infinity"
  | S754_infinity true => "-Infinity"
  | S754_finite false m e => positive_to_string x m e
  | S754_finite true m e => "-" +:+ positive_to_string (S754_finite false m e) m e
  end.

End Float64.

#[global] Instance js_reference : JSNumber := {|
  num := spec_float;
  Number := Float64.Number;
  num_zero := S754_zero false;
  num_add := SFadd Float64.prec Float64.emax;
  num_div := SFdiv Float64.prec Float64.emax;
  num_rem := Float64.rem;
  num_String := Float64.to_string
|}.

(** ** The vocabulary of the specification *)

(** The two borders of a block. *)
Inductive Edge := LeftEdge | RightEdge.

(** An outward edge: the arrow of the left border pointing left, or the
    arrow of the right border pointing right. *)
Definition outward_edge (e : Edge) (b : Block) (a : Arrow) : Prop :=
  match e with
  | LeftEdge => left b = Some a /\ direction a = TowardLeft
  | RightEdge => right b = Some a /\ direction a = TowardRight
  end.

(** Of two edges of unequal weight, the one with more dashes and the one
    with fewer. *)
Definition heavier (l r : Arrow) : Edge :=
  if dashes r <? dashes l then LeftEdge else RightEdge.

Definition lighter (l r : Arrow) : Edge :=
  if dashes l <? dashes r then LeftEdge else RightEdge.

(** Walking an edge's magnitude in the edge's direction, as a signed shift. *)
Definition jump_along (e : Edge) (l r : Arrow) : Z :=
  match e with
  | LeftEdge => (- Z.of_nat (heads l))%Z
  | RightEdge => Z.of_nat (heads r)
  end.

(** The dominant edge in the words of the specification: the lighter edge
    exactly when the stream is the text "true". *)
Definition dominant_as_specified (stream : string) (l r : Arrow) : Edge :=
  if String.eqb stream "true" then lighter l r else heavier l r.

(** The dominant edge of the engine: the heavier edge exactly when the
    stream is the text "true". *)
Definition dominant (stream : string) (l r : Arrow) : Edge :=
  if String.eqb stream "true" then heavier l r else lighter l r.

(** The doubled-quote character of program texts. *)
Definition quote : string := String (ascii_of_nat 34) EmptyString.

(** Sample programs. *)

(** [a <- b --> c]: [b] has two outward send arrows of weights 1 and 2. *)
Definition program_weights : string := "a <- b --> c".

Definition file_weights : Block :=
  BlockBranch None None
    [Call None (Some (mkArrow 0 1 1)) "a" [];
     Call (Some (mkArrow 0 1 1)) (Some (mkArrow 1 1 2)) "b" [];
     Call (Some (mkArrow 1 1 2)) None "c" []]
    None.

(** [print A <- equals --> print B]: [equals] turns the empty stream into
    the text "true" in front of the same two arrows. *)
Definition program_true : string := "print A <- equals --> print B".

Definition file_true : Block :=
  BlockBranch None None
    [Call None (Some (mkArrow 0 1 1)) "print" ["A"];
     Call (Some (mkArrow 0 1 1)) (Some (mkArrow 1 1 2)) "equals" [];
     Call (Some (mkArrow 1 1 2)) None "print" ["B"]]
    None.

(** [print L <<- x -> print R]: [x] has two outward arrows of equal weight 1,
    of magnitudes 2 (left) and 1 (right). *)
Definition program_fork : string := "print L <<- x -> print R".

Definition file_fork : Block :=
  BlockBranch None None
    [Call None (Some (mkArrow 2 2 1)) "print" ["L"];
     Call (Some (mkArrow 2 2 1)) (Some (mkArrow 1 1 1)) "x" [];
     Call (Some (mkArrow 1 1 1)) None "print" ["R"]]
    None.

(** [x ->> y <- { b } --> c]: the process started at [x] jumps two blocks
    to the right and lands on [b], inside a group whose own borders carry
    two outward arrows of weights 1 and 2. *)
Definition program_nested : string := "x ->> y <- { b } --> c".

Definition file_nested : Block :=
  BlockBranch None None
    [Call None (Some (mkArrow 3 2 1)) "x" [];
     Call (Some (mkArrow 3 2 1)) (Some (mkArrow 0 1 1)) "y" [];
     BlockBranch (Some (mkArrow 0 1 1)) (Some (mkArrow 1 1 2))
       [Call None None "b" []] None;
     Call (Some (mkArrow 1 1 2)) None "c" []]
    None.

(** The first member's left border is the arrow found at the very start of
    the group ([append] copies [tree.inner] into it). *)
Definition first_left (t : Tree) : Prop :=
  match t_blocks t with
  | first :: _ => left first = t_inner t
  | [] => True
  end.

(** [a -> b]: two top-level members joined by an arrow. *)
Definition program_joined : string := "a -> b".

Definition file_joined : Block :=
  BlockBranch None None
    [Call None (Some (mkArrow 1 1 1)) "a" [];
     Call (Some (mkArrow 1 1 1)) None "b" []]
    None.

(** A text without a newline. *)
Definition one_line (v : string) : Prop := JS.includes JS.newline v = false.

(** No task waits for an extension command. *)
Definition no_extension_call (cfg : Config) : Prop :=
  Forall (fun t => forall r, phase t <> AwaitExtension r) (tasks cfg).

(** ** The sequential reading of a member list *)

Section Sequential.

Context {js : JSNumber}.
Variable live : bool.
Variable answers : nat -> string.

(** The effect of a built-in command of a top-level Call on the one stream
    and the shared state; a name that is no built-in does nothing. *)
Definition builtin_effect (name : string) (arguments : list string)
    (acc : string * World) : string * World :=
  let s := fst acc in
  let w := snd acc in
  if String.eqb name "nothing" then ("", w)
  else if String.eqb name "input" then (answers (asked w), bump_asked w)
  else if String.eqb name "equals" then (JS.of_bool (String.eqb s (JS.join arguments)), w)
  else if String.eqb name "sum" then (sum_builtin s arguments, w)
  else if String.eqb name "div" then (div_builtin s arguments, w)
  else if String.eqb name "mod" then (mod_builtin s arguments, w)
  else if String.eqb name "loop" then (s, loop_builtin s arguments w)
  else if String.eqb name "pop" then pop_builtin w
  else if String.eqb name "done" then (done_builtin w, w)
  else if String.eqb name "print" then (s, emit live (JS.join arguments +:+ s) w)
  else (s, w).

(** A Literal appends its text, a Call applies its built-in. *)
Definition block_effect (acc : string * World) (b : Block) : string * World :=
  match b with
  | StringBlock _ _ str => (fst acc +:+ str, snd acc)
  | Call _ _ name arguments => builtin_effect name arguments acc
  | BlockBranch _ _ _ _ => acc
  end.

(** The members applied strictly left to right to a single stream. *)
Definition sequential (members : list Block) : string * World :=
  fold_left block_effect members ("", World0).

(** Every run from [cfg] keeps one task, [cfg] has a complete run, and
    every complete run ends in the world [final]. *)
Definition runs_to (file : Block) (cfg : Config) (final : World) : Prop :=
  (exists schedule cfg',
      run live answers file schedule cfg = Some cfg' /\ running cfg' = 0) /\
  (forall schedule cfg',
      run live answers file schedule cfg = Some cfg' ->
      length (tasks cfg') = 1 /\ (running cfg' = 0 -> world cfg' = final)).

End Sequential.

(** A group under construction in a text without arrows: no inner arrow, and
    at most one member, which has no arrow on its borders. *)
Definition plain (t : Tree) : Prop :=
  t_inner t = None /\
  (t_blocks t = [] \/
   exists b, t_blocks t = [b] /\ left b = None /\ right b = None).

Definition no_arrow_token (tok : Token) : Prop := fst tok <> ARROW.

(** Unfold one dispatch of the lexer without opening the character classes. *)
Ltac lex_reduce :=
  cbn -[isWhitespace is_digit is_quote is_arrow_glyph is_brace is_backslash
        arrow_prefix arrow_final String.append].

(** A right-pointing send arrow: [->], [-->], ... *)
Definition send_right (a : option Arrow) : bool :=
  match a with
  | Some a => (akind a =? RIGHT_SEND) && (heads a =? 1)
  | None => false
  end.

Definition no_arrow (a : option Arrow) : bool :=
  match a with None => true | Some _ => false end.

(** A sequence of Literal and Call blocks joined, from left to right, by
    right-pointing send arrows, with no arrow before the first block or
    after the last one.  The empty sequence and a single block without
    arrows are the sequences that need no arrow. *)
Fixpoint chained_from (first : bool) (members : list Block) : bool :=
  match members with
  | [] => true
  | b :: rest =>
      negb (is_branch b)
      && (if first then no_arrow (left b) else send_right (left b))
      && match rest with
         | [] => no_arrow (right b)
         | _ :: _ => send_right (right b)
         end
      && chained_from false rest
  end.

Definition chained (members : list Block) : bool := chained_from true members.

(** The Literal [Hi!] and the name [print] with no arrow in between. *)
Definition program_hi_print : string := quote +:+ "Hi!" +:+ quote +:+ " print".

(** ["Hi!" -> print -> nothing -> "5" -> sum 1 2 --> print] *)
Definition program_chain : string :=
  quote +:+ "Hi!" +:+ quote +:+ " -> print -> nothing -> " +:+ quote +:+ "5" +:+ quote
  +:+ " -> sum 1 2 --> print".

Definition file_chain : Block :=
  BlockBranch None None
    [StringBlock None (Some (mkArrow 1 1 1)) "Hi!";
     Call (Some (mkArrow 1 1 1)) (Some (mkArrow 1 1 1)) "print" [];
     Call (Some (mkArrow 1 1 1)) (Some (mkArrow 1 1 1)) "nothing" [];
     StringBlock (Some (mkArrow 1 1 1)) (Some (mkArrow 1 1 1)) "5";
     Call (Some (mkArrow 1 1 1)) (Some (mkArrow 1 1 2)) "sum" ["1"; "2"];
     Call (Some (mkArrow 1 1 2)) None "print" []]
    None.

(** The pool of a run that has one task, on the top-level member [k]:
    at the top of its loop, waiting for the answer to its [input], and
    returned. *)
Definition ready (k : nat) (s : string) (w : World) : Config :=
  mkConfig w [mkTask [k] (Some []) s ∅ Ready].

Definition waiting (k : nat) (s : string) (w : World) : Config :=
  mkConfig (bump_asked w) [mkTask [k] (Some []) s ∅ (AwaitInput (asked w))].

Definition finished (k : nat) (s : string) (w : World) : Config :=
  mkConfig w [mkTask [k] (Some []) s ∅ (Returned ∅)].

(** Where the task stands once member [k] is done: on the next member, or
    returned when [k] was the last one. *)
Definition arrive (k : nat) (post : list Block) (s : string) (w : World) : Config :=
  match post with
  | [] => finished k s w
  | _ :: _ => ready (k + 1) s w
  end.

(** ** The arrow decoder *)

Lemma length_filter_chars p s :
  String.length (JS.filter_chars p s) = count_glyphs p s.
Proof.
  induction s as [|c r IH]; simpl; [reflexivity|].
  destruct (p c); simpl; rewrite IH; reflexivity.
Qed.

Lemma includes_true_iff c s :
  JS.includes c s = true <-> exists i, String.get i s = Some c.
Proof.
  induction s as [|d r IH]; simpl.
  - split; [discriminate | intros [i H]; discriminate].
  - rewrite orb_true_iff, IH. unfold JS.eqc. split.
    + intros [H | [i H]].
      * apply Ascii.eqb_eq in H. subst. exists 0. reflexivity.
      * exists (S i). exact H.
    + intros [[|i] H]; simpl in H.
      * left. injection H as ->. apply Ascii.eqb_refl.
      * right. exists i. exact H.
Qed.

Lemma arrow_final_has_head s :
  arrow_final s = true -> 1 <= count_glyphs non_dash s.
Proof.
  unfold arrow_final, re_left, re_right. intros H.
  apply orb_true_iff in H as [H | H]; apply andb_true_iff in H as [H _].
  - destruct s as [|c r]; simpl in *; [discriminate|].
    unfold is_lt, non_dash, JS.eqc in *. apply Ascii.eqb_eq in H. subst c.
    simpl. lia.
  - induction s as [|c r IH]; simpl in *; [discriminate|].
    unfold non_dash, is_dash in *. destruct (JS.eqc c JS.dash) eqn:E; simpl.
    + apply IH, H.
    + lia.
Qed.

(** C6: on every well-formed arrow glyph run, [parseArrow] (a total
    function, so decoding never fails) yields a descriptor whose magnitude
    is the count of non-dash glyphs (at least one), whose weight is the
    count of dash glyphs, whose direction is toward-left exactly when the
    run contains the glyph '<', and whose mode is send exactly when the
    magnitude is 1 (jump otherwise). *)
Theorem parseArrow_descriptor (text : string) :
  arrow_final text = true ->
  let a := parseArrow text in
  heads a = count_glyphs non_dash text /\
  1 <= heads a /\
  dashes a = count_glyphs is_dash text /\
  (direction a = TowardLeft <-> exists i, String.get i text = Some JS.lt_glyph) /\
  (direction a = TowardRight <-> ~ exists i, String.get i text = Some JS.lt_glyph) /\
  (mode a = Send <-> heads a = 1) /\
  (mode a = Jump <-> heads a <> 1).
Proof.
  intros Hwf a. subst a. unfold parseArrow, direction, mode. simpl.
  rewrite !length_filter_chars.
  pose proof (arrow_final_has_head _ Hwf) as Hpos.
  rewrite <- (includes_true_iff JS.lt_glyph text).
  repeat split; try assumption.
  - destruct (Nat.eqb (count_glyphs non_dash text) 1), (JS.includes JS.lt_glyph text);
      simpl; congruence.
  - destruct (Nat.eqb (count_glyphs non_dash text) 1), (JS.includes JS.lt_glyph text);
      simpl; congruence.
  - destruct (Nat.eqb (count_glyphs non_dash text) 1), (JS.includes JS.lt_glyph text);
      simpl; congruence.
  - destruct (Nat.eqb (count_glyphs non_dash text) 1), (JS.includes JS.lt_glyph text);
      simpl; congruence.
  - destruct (Nat.eqb (count_glyphs non_dash text) 1) eqn:E, (JS.includes JS.lt_glyph text);
      simpl; try congruence; intros _; apply Nat.eqb_eq, E.
  - intros E. apply Nat.eqb_eq in E. rewrite E.
    destruct (JS.includes JS.lt_glyph text); reflexivity.
  - destruct (Nat.eqb (count_glyphs non_dash text) 1) eqn:E, (JS.includes JS.lt_glyph text);
      simpl; try congruence; intros _; apply Nat.eqb_neq, E.
  - intros E. apply Nat.eqb_neq in E. rewrite E.
    destruct (JS.includes JS.lt_glyph text); reflexivity.
Qed.

Lemma parseArrow_descriptor_witness :
  arrow_final "<<--" = true /\
  heads (parseArrow "<<--") = 2 /\ dashes (parseArrow "<<--") = 2 /\
  direction (parseArrow "<<--") = TowardLeft /\ mode (parseArrow "<<--") = Jump.
Proof.
  split; [reflexivity|].
  pose proof (parseArrow_descriptor "<<--" eq_refl) as H.
  cbv zeta in H. destruct H as (Hh & _ & Hd & Hl & _ & _ & Hj).
  split; [exact Hh|]. split; [exact Hd|].
  split.
  - apply Hl. exists 0. reflexivity.
  - apply Hj. rewrite Hh. simpl. discriminate.
Defined.

(** ** The next move at a block with two outward edges *)

Section Moves.

Lemma outward_left_spec b a :
  outward 0 (left b) = Some a <-> outward_edge LeftEdge b a.
Proof.
  unfold outward, outward_edge, direction.
  destruct (left b) as [x|]; [|split; [discriminate | intros [? _]; discriminate]].
  destruct (akind x mod 2 =? 0) eqn:E.
  - split.
    + intros [= ->]. rewrite E. split; reflexivity.
    + intros [[= ->] _]. reflexivity.
  - split; [discriminate|]. intros [[= ->] H]. rewrite E in H. discriminate.
Qed.

Lemma outward_right_spec b a :
  outward 1 (right b) = Some a <-> outward_edge RightEdge b a.
Proof.
  unfold outward, outward_edge, direction.
  destruct (right b) as [x|]; [|split; [discriminate | intros [? _]; discriminate]].
  pose proof (Nat.mod_upper_bound (akind x) 2) as Hm.
  destruct (Nat.eqb_spec (akind x mod 2) 1) as [E1 | E1].
  - split.
    + intros [= ->]. rewrite E1. split; reflexivity.
    + intros [[= ->] _]. reflexivity.
  - split; [discriminate|]. intros [[= ->] H].
    destruct (Nat.eqb_spec (akind a mod 2) 0); [discriminate | lia].
Qed.

(** The signed shift the engine computes at two unequal weights is the jump
    along the heavier edge on "true" and along the lighter edge otherwise. *)
Lemma side_shift l r s :
  dashes l <> dashes r ->
  (side (dashes l) (dashes r) s
   * Z.of_nat (heads (if (side (dashes l) (dashes r) s =? -1)%Z then l else r)))%Z
  = jump_along (dominant s l r) l r.
Proof.
  intros Hne. unfold side, dominant, heavier, lighter, jump_along.
  destruct (String.eqb s "true");
    destruct (Nat.ltb_spec (dashes r) (dashes l));
    destruct (Nat.ltb_spec (dashes l) (dashes r)); simpl; lia.
Qed.

Lemma point_shift l r s :
  dashes l <> dashes r ->
  (if (0 <? side (dashes l) (dashes r) s)%Z
   then Z.of_nat (heads r) else (Z.of_nat (heads l) * -1)%Z)
  = jump_along (dominant s l r) l r.
Proof.
  intros Hne. unfold side, dominant, heavier, lighter, jump_along.
  destruct (String.eqb s "true");
    destruct (Nat.ltb_spec (dashes r) (dashes l));
    destruct (Nat.ltb_spec (dashes l) (dashes r)); simpl; lia.
Qed.

(** The second branch of the move: both borders of the block itself are
    outward and the weights differ. *)
Lemma resolve_unequal_here file ending c b l r s m :
  outward_edge LeftEdge b l -> outward_edge RightEdge b r ->
  dashes l <> dashes r ->
  resolve file ending c b s m
  = mkOutcome s None (next_of (getBlockOf file c (jump_along (dominant s l r) l r))).
Proof.
  intros Hl Hr Hne. unfold resolve.
  apply outward_left_spec in Hl. apply outward_right_spec in Hr. rewrite Hl, Hr.
  destruct (Nat.eqb_spec (dashes l) (dashes r)) as [E | _]; [contradiction|].
  rewrite side_shift by assumption. reflexivity.
Qed.

(** The first branch of the move: the block has no outward edge, the walk
    up stops at the ancestor [c'], and both borders of that ancestor are
    outward with different weights. *)
Lemma resolve_unequal_above file ending c b c' b' l r s m :
  has_outward b = false ->
  ascend file ending c = Some c' ->
  block_at file c' = Some b' ->
  outward_edge LeftEdge b' l -> outward_edge RightEdge b' r ->
  dashes l <> dashes r ->
  resolve file ending c b s m
  = mkOutcome (s +:+ get_or_empty m c') None
      (next_of (getBlockOf file c'
                  (jump_along (dominant (s +:+ get_or_empty m c') l r) l r))).
Proof.
  intros Hb Hup Hat Hl Hr Hne. unfold resolve.
  unfold has_outward in Hb.
  destruct (outward 0 (left b)); [destruct (outward 1 (right b)); discriminate|].
  destruct (outward 1 (right b)); [discriminate|].
  rewrite Hup, Hat. simpl.
  apply outward_left_spec in Hl. apply outward_right_spec in Hr. rewrite Hl, Hr.
  destruct (Nat.eqb_spec (dashes l) (dashes r)) as [E | _]; [contradiction|].
  simpl. rewrite point_shift by assumption. reflexivity.
Qed.

(** The fork of the second branch: both borders outward, equal weights. *)
Lemma resolve_equal_here file ending c b l r s m :
  outward_edge LeftEdge b l -> outward_edge RightEdge b r ->
  dashes l = dashes r ->
  resolve file ending c b s m
  = mkOutcome s None
      (Fork (getBlockOf file c (Z.of_nat (dashes l)))
            (getBlockOf file c (- Z.of_nat (dashes r)))).
Proof.
  intros Hl Hr He. unfold resolve.
  apply outward_left_spec in Hl. apply outward_right_spec in Hr. rewrite Hl, Hr.
  rewrite He, Nat.eqb_refl.
  replace (1 * Z.of_nat (dashes r))%Z with (Z.of_nat (dashes r)) by lia.
  replace (-1 * Z.of_nat (dashes r))%Z with (- Z.of_nat (dashes r))%Z by lia.
  reflexivity.
Qed.

(** C1 (as amended): at a block whose two borders both carry outward edges
    of unequal weights, the edge the task follows is the heavier one exactly
    when the stream is the text "true" and the lighter one otherwise; the
    task moves by that edge's magnitude in that edge's direction (and ends
    when that walk leaves the program), the stream is left as it is and no
    other process is started.  This holds where the block itself carries the
    two edges, and where the walk up from an edge-less block stops at an
    ancestor that carries them (the stream being first extended by the
    output pending for that ancestor). *)
Theorem heavier_edge_dominates_on_true file ending c b s m :
  (forall l r,
      outward_edge LeftEdge b l -> outward_edge RightEdge b r ->
      dashes l <> dashes r ->
      let e := if String.eqb s "true" then heavier l r else lighter l r in
      resolve file ending c b s m
      = mkOutcome s None (next_of (getBlockOf file c (jump_along e l r))))
  /\
  (forall c' b' l r,
      has_outward b = false ->
      ascend file ending c = Some c' ->
      block_at file c' = Some b' ->
      outward_edge LeftEdge b' l -> outward_edge RightEdge b' r ->
      dashes l <> dashes r ->
      let s' := s +:+ get_or_empty m c' in
      let e := if String.eqb s' "true" then heavier l r else lighter l r in
      resolve file ending c b s m
      = mkOutcome s' None (next_of (getBlockOf file c' (jump_along e l r)))).
Proof.
  split.
  - intros l r Hl Hr Hne e. subst e.
    rewrite (resolve_unequal_here file ending c b l r s m Hl Hr Hne). reflexivity.
  - intros c' b' l r Hb Hup Hat Hl Hr Hne s' e. subst s' e.
    rewrite (resolve_unequal_above file ending c b c' b' l r s m Hb Hup Hat Hl Hr Hne).
    reflexivity.
Qed.

(** C3 (as amended): at a node with two outward edges of unequal weight the
    engine starts no detached task, whether the two magnitudes are equal or
    not; the task continues along the dominant edge (the heavier one on the
    stream "true", the lighter one otherwise) or ends when that walk leaves
    the program.  In the pool of tasks, such a move adds no task. *)
Theorem no_detached_task_at_unequal_weights file ending c b s m :
  (forall l r,
      outward_edge LeftEdge b l -> outward_edge RightEdge b r ->
      dashes l <> dashes r ->
      o_detached (resolve file ending c b s m) = None /\
      o_next (resolve file ending c b s m)
      = next_of (getBlockOf file c (jump_along (dominant s l r) l r)))
  /\
  (forall c' b' l r,
      has_outward b = false ->
      ascend file ending c = Some c' ->
      block_at file c' = Some b' ->
      outward_edge LeftEdge b' l -> outward_edge RightEdge b' r ->
      dashes l <> dashes r ->
      o_detached (resolve file ending c b s m) = None /\
      o_next (resolve file ending c b s m)
      = next_of (getBlockOf file c'
                   (jump_along (dominant (s +:+ get_or_empty m c') l r) l r)))
  /\
  (forall cfg i t w l r,
      endingBlock t = ending -> block t = c ->
      outward_edge LeftEdge b l -> outward_edge RightEdge b r ->
      dashes l <> dashes r ->
      length (tasks (settle file cfg i t b s m w)) = length (tasks cfg)).
Proof.
  split; [|split].
  - intros l r Hl Hr Hne.
    rewrite (resolve_unequal_here file ending c b l r s m Hl Hr Hne). split; reflexivity.
  - intros c' b' l r Hb Hup Hat Hl Hr Hne.
    rewrite (resolve_unequal_above file ending c b c' b' l r s m Hb Hup Hat Hl Hr Hne).
    split; reflexivity.
  - intros cfg i t w l r He Hc Hl Hr Hne. unfold settle. rewrite He, Hc.
    rewrite (resolve_unequal_here file ending c b l r s m Hl Hr Hne). simpl.
    destruct (getBlockOf file c (jump_along (dominant s l r) l r)); simpl;
      rewrite length_insert, length_app; simpl; lia.
Qed.

End Moves.

(** The sample programs parse to the sample trees. *)
Lemma load_program_weights : load program_weights = Ok file_weights.
Proof. vm_compute. reflexivity. Qed.

Lemma load_program_true : load program_true = Ok file_true.
Proof. vm_compute. reflexivity. Qed.

Lemma load_program_fork : load program_fork = Ok file_fork.
Proof. vm_compute. reflexivity. Qed.

Lemma load_program_nested : load program_nested = Ok file_nested.
Proof. vm_compute. reflexivity. Qed.

Lemma heavier_edge_dominates_on_true_witness :
  resolve file_true (Some []) [1]
    (Call (Some (mkArrow 0 1 1)) (Some (mkArrow 1 1 2)) "equals" []) "true" ∅
  = mkOutcome "true" None (Goto [2])
  /\
  resolve file_nested (Some []) [0; 2] (Call None None "b" []) "" ∅
  = mkOutcome "" None (Goto [1]).
Proof.
  split.
  - exact (proj1 (heavier_edge_dominates_on_true file_true (Some []) [1]
             (Call (Some (mkArrow 0 1 1)) (Some (mkArrow 1 1 2)) "equals" []) "true" ∅)
             (mkArrow 0 1 1) (mkArrow 1 1 2)
             (conj eq_refl eq_refl) (conj eq_refl eq_refl)
             (fun H : 1 = 2 => eq_ind 1 (fun n => match n with 1 => True | _ => False end) I 2 H)).
  - exact (proj2 (heavier_edge_dominates_on_true file_nested (Some []) [0; 2]
             (Call None None "b" []) "" ∅)
             [2]
             (BlockBranch (Some (mkArrow 0 1 1)) (Some (mkArrow 1 1 2))
                [Call None None "b" []] None)
             (mkArrow 0 1 1) (mkArrow 1 1 2)
             eq_refl eq_refl eq_refl
             (conj eq_refl eq_refl) (conj eq_refl eq_refl)
             (fun H : 1 = 2 => eq_ind 1 (fun n => match n with 1 => True | _ => False end) I 2 H)).
Defined.

(** C1, as the specification words it, fails on [print A <- equals --> print B]:
    after [equals] the stream is the text "true", the two outward edges of
    the block weigh 1 (left) and 2 (right), and the engine follows the
    heavier right edge to [print B], where the lighter left edge, the one
    the specification calls dominant, leads to [print A]. *)
Lemma lighter_edge_on_true_refuted :
  load program_true = Ok file_true /\
  dispatch false extensions [1] "equals" [] "" ∅ World0 = Settled "true" ∅ World0 /\
  outward_edge LeftEdge
    (Call (Some (mkArrow 0 1 1)) (Some (mkArrow 1 1 2)) "equals" []) (mkArrow 0 1 1) /\
  outward_edge RightEdge
    (Call (Some (mkArrow 0 1 1)) (Some (mkArrow 1 1 2)) "equals" []) (mkArrow 1 1 2) /\
  dashes (mkArrow 0 1 1) <> dashes (mkArrow 1 1 2) /\
  o_next (resolve file_true (Some []) [1]
            (Call (Some (mkArrow 0 1 1)) (Some (mkArrow 1 1 2)) "equals" []) "true" ∅)
  = Goto [2] /\
  next_of (getBlockOf file_true [1]
             (jump_along (dominant_as_specified "true" (mkArrow 0 1 1) (mkArrow 1 1 2))
                         (mkArrow 0 1 1) (mkArrow 1 1 2)))
  = Goto [0] /\
  o_next (resolve file_true (Some []) [1]
            (Call (Some (mkArrow 0 1 1)) (Some (mkArrow 1 1 2)) "equals" []) "true" ∅)
  <> next_of (getBlockOf file_true [1]
             (jump_along (dominant_as_specified "true" (mkArrow 0 1 1) (mkArrow 1 1 2))
                         (mkArrow 0 1 1) (mkArrow 1 1 2))).
Proof.
  repeat split; try reflexivity; simpl; discriminate.
Qed.

(** The same program run as a whole: its only begin block is [equals], and
    the batch output is what [print B] writes. *)
Lemma program_true_prints_B (answers : nat -> string) :
  sendhelp false answers program_true (Some "Btrue").
Proof.
  exists file_true, [1], [0; 0].
  eexists. split; [exact load_program_true|].
  split; [reflexivity|].
  split; [vm_compute; reflexivity|].
  split; reflexivity.
Qed.

Lemma no_detached_task_at_unequal_weights_witness :
  (o_detached (resolve file_weights (Some []) [1]
     (Call (Some (mkArrow 0 1 1)) (Some (mkArrow 1 1 2)) "b" []) "" ∅) = None /\
   o_next (resolve file_weights (Some []) [1]
     (Call (Some (mkArrow 0 1 1)) (Some (mkArrow 1 1 2)) "b" []) "" ∅) = Goto [0])
  /\
  (o_detached (resolve file_nested (Some []) [0; 2] (Call None None "b" []) "true" ∅) = None /\
   o_next (resolve file_nested (Some []) [0; 2] (Call None None "b" []) "true" ∅) = Goto [3])
  /\
  length (tasks (settle file_weights (start [1]) 0 (new_process [1])
     (Call (Some (mkArrow 0 1 1)) (Some (mkArrow 1 1 2)) "b" []) "" ∅ World0)) = 1.
Proof.
  pose (ne := fun H : 1 = 2 =>
          eq_ind 1 (fun n => match n with 1 => True | _ => False end) I 2 H).
  split; [|split].
  - exact (proj1 (no_detached_task_at_unequal_weights file_weights (Some []) [1]
             (Call (Some (mkArrow 0 1 1)) (Some (mkArrow 1 1 2)) "b" []) "" ∅)
             (mkArrow 0 1 1) (mkArrow 1 1 2)
             (conj eq_refl eq_refl) (conj eq_refl eq_refl) ne).
  - exact (proj1 (proj2 (no_detached_task_at_unequal_weights file_nested (Some []) [0; 2]
             (Call None None "b" []) "true" ∅))
             [2]
             (BlockBranch (Some (mkArrow 0 1 1)) (Some (mkArrow 1 1 2))
                [Call None None "b" []] None)
             (mkArrow 0 1 1) (mkArrow 1 1 2)
             eq_refl eq_refl eq_refl
             (conj eq_refl eq_refl) (conj eq_refl eq_refl) ne).
  - exact (proj2 (proj2 (no_detached_task_at_unequal_weights file_weights (Some []) [1]
             (Call (Some (mkArrow 0 1 1)) (Some (mkArrow 1 1 2)) "b" []) "" ∅))
             (start [1]) 0 (new_process [1]) World0
             (mkArrow 0 1 1) (mkArrow 1 1 2)
             eq_refl eq_refl
             (conj eq_refl eq_refl) (conj eq_refl eq_refl) ne).
Defined.

(** C3, as the specification words it, fails on [a <- b --> c]: the two
    outward edges of [b] have the same magnitude 1 and the unequal weights 1
    and 2, and the engine starts no detached process: the move names none,
    and the pool still holds the one task that made the move. *)
Lemma detached_task_on_equal_magnitudes_refuted :
  load program_weights = Ok file_weights /\
  outward_edge LeftEdge
    (Call (Some (mkArrow 0 1 1)) (Some (mkArrow 1 1 2)) "b" []) (mkArrow 0 1 1) /\
  outward_edge RightEdge
    (Call (Some (mkArrow 0 1 1)) (Some (mkArrow 1 1 2)) "b" []) (mkArrow 1 1 2) /\
  heads (mkArrow 0 1 1) = heads (mkArrow 1 1 2) /\
  dashes (mkArrow 0 1 1) <> dashes (mkArrow 1 1 2) /\
  (forall target copy,
      o_detached (resolve file_weights (Some []) [1]
        (Call (Some (mkArrow 0 1 1)) (Some (mkArrow 1 1 2)) "b" []) "" ∅)
      <> Some (target, copy)) /\
  (forall (answers : nat -> string),
      option_map (fun cfg => length (tasks cfg))
                 (step false answers file_weights 0 (start [1])) = Some 1).
Proof.
  repeat split; try reflexivity; simpl; try discriminate.
Qed.

(** C2 on [print L <<- x -> print R]: the two outward edges of [x] have the
    equal weight 1 and the magnitudes 2 (left) and 1 (right).  The engine
    forks, and its two children are found by walking the weight, 1, to the
    right (to [print R]) and then to the left (to [print L]); walking the
    left edge's magnitude to the left leaves the program, so that the left
    child of the specification would not exist.  A whole run shows the
    second [L] that the child at [print L] writes. *)
Theorem fork_children_walk_by_weight (answers : nat -> string) :
  load program_fork = Ok file_fork /\
  outward_edge LeftEdge
    (Call (Some (mkArrow 2 2 1)) (Some (mkArrow 1 1 1)) "x" []) (mkArrow 2 2 1) /\
  outward_edge RightEdge
    (Call (Some (mkArrow 2 2 1)) (Some (mkArrow 1 1 1)) "x" []) (mkArrow 1 1 1) /\
  dashes (mkArrow 2 2 1) = dashes (mkArrow 1 1 1) /\
  resolve file_fork (Some []) [1]
    (Call (Some (mkArrow 2 2 1)) (Some (mkArrow 1 1 1)) "x" []) "" ∅
  = mkOutcome "" None (Fork (GBlock [2]) (GBlock [0])) /\
  getBlockOf file_fork [1] (jump_along LeftEdge (mkArrow 2 2 1) (mkArrow 1 1 1)) = GNull /\
  getBlockOf file_fork [1] (jump_along RightEdge (mkArrow 2 2 1) (mkArrow 1 1 1))
  = GBlock [2] /\
  sendhelp false answers program_fork (Some "LRL").
Proof.
  repeat split; try reflexivity.
  exists file_fork, [0; 1], [0; 1; 2; 3; 1].
  eexists. split; [exact load_program_fork|].
  split; [reflexivity|].
  split; [vm_compute; reflexivity|].
  split; reflexivity.
Qed.

(** ** The lexer and the parser never run out of fuel *)

Lemma glyph_cases c :
  is_arrow_glyph c = true -> c = "<"%char \/ c = ">"%char \/ c = "-"%char.
Proof.
  unfold is_arrow_glyph, is_lt, is_gt, is_dash, JS.eqc. intros H.
  apply orb_true_iff in H as [H | H]; [apply orb_true_iff in H as [H | H]|];
    apply Ascii.eqb_eq in H; auto.
Qed.

Lemma glyph_classes c :
  is_arrow_glyph c = true ->
  isWhitespace c = false /\ is_digit c = false /\ is_quote c = false /\
  arrow_prefix (char_str c) = true.
Proof.
  intros G. destruct (glyph_cases c G) as [-> | [-> | ->]]; repeat split; reflexivity.
Qed.

Lemma lex_char_total l c : lex_char lex_fuel l c <> OutOfFuel.
Proof.
  unfold lex_fuel. destruct l as [toks [ty tx] bs]. destruct ty; lex_reduce.
  - destruct (is_quote c) eqn:Q; [discriminate|].
    destruct (is_arrow_glyph c) eqn:G.
    + destruct (glyph_classes c G) as (W & D & _ & P).
      unfold lx_type; lex_reduce. try rewrite W; try rewrite D.
      change (String.append EmptyString (char_str c)) with (char_str c). rewrite P.
      discriminate.
    + destruct (is_brace c); [discriminate|]. destruct (isWhitespace c); discriminate.
  - destruct bs; [discriminate|]. destruct (is_quote c); [discriminate|].
    destruct (is_backslash c); discriminate.
  - destruct (isWhitespace c) eqn:W; [discriminate|].
    destruct (is_digit c) eqn:D.
    + unfold lx_type; lex_reduce. destruct (is_quote c); [discriminate|].
      destruct (is_arrow_glyph c) eqn:G.
      * destruct (glyph_classes c G) as (_ & D' & _). congruence.
      * destruct (is_brace c); [discriminate|]. try rewrite W. discriminate.
    + destruct (is_arrow_glyph c) eqn:G; lex_reduce.
      * destruct (glyph_classes c G) as (_ & _ & Q & P).
        destruct (arrow_prefix (tx ++ char_str c)); lex_reduce; [discriminate|].
        unfold lx_type; lex_reduce. try rewrite Q.
        unfold lx_type; lex_reduce. try rewrite W; try rewrite D.
        change (String.append EmptyString (char_str c)) with (char_str c). rewrite P.
        discriminate.
      * unfold lx_type; lex_reduce. destruct (is_quote c); [discriminate|]. try rewrite G.
        destruct (is_brace c); [discriminate|]. try rewrite W. discriminate.
  - discriminate.
Qed.

Lemma lex_chars_total s : forall l, lex_chars l s <> OutOfFuel.
Proof.
  induction s as [|c r IH]; intros l; cbn [lex_chars]; [discriminate|].
  pose proof (lex_char_total l c) as H.
  destruct (lex_char lex_fuel l c) as [l'| |]; cbn [bind];
    [apply IH | discriminate | contradiction].
Qed.

Lemma tokenize_total code : tokenize code <> OutOfFuel.
Proof.
  unfold tokenize.
  pose proof (lex_chars_total code (mkLexer [] (INSTANCE, EmptyString) false)) as H.
  destruct (lex_chars _ code) as [l| |]; simpl; [|discriminate|contradiction].
  destruct (lx_backspace l || bool_decide (lx_type l = STRING)); discriminate.
Qed.

Lemma find_close_length tokens : forall level span after,
  find_close tokens level = Some (span, after) ->
  length span + length after < length tokens.
Proof.
  induction tokens as [|tok rest IH]; intros level span after H; simpl in H; [discriminate|].
  assert (Hrec : forall lv, option_map (fun p => (tok :: fst p, snd p)) (find_close rest lv)
                            = Some (span, after) ->
                            length span + length after < S (length rest)).
  { intros lv Hm. destruct (find_close rest lv) as [[sp af]|] eqn:E; [|discriminate].
    simpl in Hm. injection Hm as <- <-. apply IH in E. simpl. lia. }
  destruct (bool_decide (fst tok = BRACKET)); [|exact (Hrec _ H)].
  destruct (String.eqb (snd tok) "{"); [exact (Hrec _ H)|].
  destruct level; [|exact (Hrec _ H)].
  injection H as <- <-. simpl. lia.
Qed.

Lemma parse_loop_total fuel : forall tokens t,
  length tokens < fuel -> parse_loop fuel tokens t <> OutOfFuel.
Proof.
  induction fuel as [|fuel IH]; intros tokens t Hlen; [lia|].
  destruct tokens as [|tok rest]; simpl.
  - unfold validate. destruct (t_blocks t); [discriminate|].
    repeat match goal with |- context [if ?c then _ else _] => destruct c end; discriminate.
  - simpl in Hlen. assert (Hrest : length rest < fuel) by lia.
    destruct (fst tok).
    + destruct (bool_decide (t_blocks t = []) || negb (last_right_is_null t)).
      * apply IH, Hrest.
      * destruct (last (t_blocks t)) as [[| |]|]; try discriminate; apply IH, Hrest.
    + destruct (bool_decide (t_blocks t = []) || negb (last_right_is_null t)).
      * apply IH, Hrest.
      * destruct (last (t_blocks t)) as [[| |]|]; try discriminate; apply IH, Hrest.
    + destruct (last (t_blocks t)) as [blk|].
      * destruct (right blk); [discriminate|]. apply IH, Hrest.
      * destruct (t_inner t); [discriminate|]. apply IH, Hrest.
    + destruct (last_right_is_null t); [discriminate|].
      destruct (String.eqb (snd tok) "{"); [|discriminate].
      destruct (find_close rest 0) as [[span after]|] eqn:E; [|discriminate].
      apply find_close_length in E.
      destruct span as [|s0 span']; [discriminate|].
      pose proof (IH (s0 :: span') (mkTree [] None)) as Hsub.
      destruct (parse_loop fuel (s0 :: span') (mkTree [] None)) as [sub| |]; simpl.
      * apply IH. lia.
      * discriminate.
      * apply Hsub. simpl in *. lia.
Qed.

Lemma parse_total tokens : parse tokens <> OutOfFuel.
Proof. unfold parse. apply parse_loop_total. lia. Qed.

Lemma load_total code : load code <> OutOfFuel.
Proof.
  unfold load. pose proof (tokenize_total code) as Ht.
  destruct (tokenize code) as [tokens| |]; simpl; [|discriminate|contradiction].
  pose proof (parse_total tokens) as Hp.
  destruct (parse tokens) as [f| |]; simpl; [|discriminate|contradiction].
  unfold top_level_check.
  match goal with |- context [if ?c then _ else _] => destruct c end; discriminate.
Qed.

(** ** What [parse] returns *)

Lemma validate_Ok t f :
  validate t = Ok f -> f = BlockBranch None None (t_blocks t) (t_inner t).
Proof.
  unfold validate. destruct (t_blocks t) as [|first rest] eqn:E.
  - intros [= <-]. reflexivity.
  - repeat match goal with |- context [if ?c then _ else _] => destruct c end;
      intros [= <-]; reflexivity.
Qed.

Lemma update_last_snoc {A} (f : A -> A) (xs : list A) (x : A) :
  last xs = Some x -> exists l', xs = l' ++ [x] /\ update_last f xs = l' ++ [f x].
Proof.
  intros H. unfold update_last. rewrite H.
  apply last_Some in H as [l' ->]. exists l'. split; [reflexivity|].
  rewrite removelast_last. reflexivity.
Qed.

Lemma first_left_append b t : first_left t -> first_left (tree_append b t).
Proof.
  unfold first_left, tree_append. simpl.
  destruct (t_blocks t) as [|first rest]; simpl.
  - intros _. destruct b; reflexivity.
  - auto.
Qed.

Lemma first_left_update f t x :
  last (t_blocks t) = Some x -> left (f x) = left x ->
  first_left t -> first_left (mkTree (update_last f (t_blocks t)) (t_inner t)).
Proof.
  intros Hl Hf. unfold first_left. simpl.
  destruct (update_last_snoc f _ _ Hl) as (l' & -> & ->).
  destruct l' as [|y l'']; simpl; [congruence | auto].
Qed.

Lemma left_set_right a b : left (set_right a b) = left b.
Proof. destruct b; reflexivity. Qed.

(** Every tree [parse] returns is the group that passed [validate]. *)
Lemma parse_loop_shape fuel : forall tokens t f,
  first_left t -> parse_loop fuel tokens t = Ok f ->
  exists t', first_left t' /\ validate t' = Ok f.
Proof.
  induction fuel as [|fuel IH]; intros tokens t f Hinv H; [discriminate|].
  destruct tokens as [|tok rest]; simpl in H; [exists t; auto|].
  destruct (fst tok).
  - (* INSTANCE *)
    destruct (bool_decide (t_blocks t = []) || negb (last_right_is_null t)).
    + eapply IH; [|exact H]. apply first_left_append, Hinv.
    + destruct (last (t_blocks t)) as [[l r bs i | l r n args | l r s]|] eqn:E;
        try discriminate; (eapply IH; [|exact H]);
        eapply first_left_update; eauto.
  - (* STRING *)
    destruct (bool_decide (t_blocks t = []) || negb (last_right_is_null t)).
    + eapply IH; [|exact H]. apply first_left_append, Hinv.
    + destruct (last (t_blocks t)) as [[l r bs i | l r n args | l r s]|] eqn:E;
        try discriminate; (eapply IH; [|exact H]);
        eapply first_left_update; eauto.
  - (* ARROW *)
    destruct (last (t_blocks t)) as [blk|] eqn:E.
    + destruct (right blk); [discriminate|].
      eapply IH; [|exact H]. eapply first_left_update; eauto using left_set_right.
    + destruct (t_inner t); [discriminate|].
      eapply IH; [|exact H]. unfold first_left. simpl.
      apply last_None in E. rewrite E. exact I.
  - (* BRACKET *)
    destruct (last_right_is_null t); [discriminate|].
    destruct (String.eqb (snd tok) "{"); [|discriminate].
    destruct (find_close rest 0) as [[[|s0 span] after]|]; try discriminate.
    destruct (parse_loop fuel (s0 :: span) (mkTree [] None)) as [sub| |]; try discriminate.
    simpl in H. eapply IH; [|exact H]. apply first_left_append, Hinv.
Qed.

Lemma parse_shape tokens f :
  parse tokens = Ok f ->
  exists bs i, f = BlockBranch None None bs i /\
               match bs with first :: _ => left first = i | [] => True end.
Proof.
  unfold parse. intros H.
  apply parse_loop_shape in H as (t' & Hinv & Hv); [|exact I].
  apply validate_Ok in Hv. exists (t_blocks t'), (t_inner t'). auto.
Qed.

Lemma load_inv code file :
  load code = Ok file ->
  exists tokens, tokenize code = Ok tokens /\ parse tokens = Ok file /\
                 top_level_check file = Ok file.
Proof.
  unfold load. destruct (tokenize code) as [tokens| |]; simpl; try discriminate.
  destruct (parse tokens) as [f| |] eqn:P; simpl; try discriminate.
  intros H. exists tokens. split; [reflexivity|].
  assert (f = file) as ->.
  { unfold top_level_check in H.
    match type of H with context [if ?c then _ else _] => destruct c end;
      congruence. }
  auto.
Qed.

(** C4 (as amended): the top-level group of every program that [sendhelp]
    accepts carries no arrow of its own (no left, right or inner descriptor)
    and none on its outer boundary (the first member's left border and the
    last member's right border); a parsed program with an inner descriptor
    or an arrow after its last member is rejected with the structural error
    of the top-level check, before any process is started.  Arrows between
    top-level members are allowed. *)
Theorem top_level_boundary_has_no_arrow code :
  (forall file,
      load code = Ok file ->
      left file = None /\ right file = None /\ inner file = None /\
      (forall first, head (blocks file) = Some first -> left first = None) /\
      (forall final, last (blocks file) = Some final -> right final = None))
  /\
  (forall tokens tree,
      tokenize code = Ok tokens -> parse tokens = Ok tree ->
      (inner tree <> None \/
       exists final, last (blocks tree) = Some final /\ right final <> None) ->
      load code = Panic "Arrows are not allowed at top-level block").
Proof.
  split.
  - intros file H. apply load_inv in H as (tokens & _ & Hp & Hc).
    apply parse_shape in Hp as (bs & i & -> & Hfirst).
    unfold top_level_check in Hc. simpl in Hc.
    destruct (bool_decide (i <> None)) eqn:Ei; [discriminate|].
    apply bool_decide_eq_false in Ei.
    assert (i = None) as -> by (destruct i; [exfalso; apply Ei; discriminate | reflexivity]).
    simpl in *. repeat split.
    + intros first Hh. destruct bs; [discriminate|]. injection Hh as ->. exact Hfirst.
    + intros final Hl. rewrite Hl in Hc.
      destruct (bool_decide (right final <> None)) eqn:Er; [discriminate|].
      apply bool_decide_eq_false in Er.
      destruct (right final); [exfalso; apply Er; discriminate | reflexivity].
  - intros tokens tree Ht Hp Hbad. unfold load. rewrite Ht. simpl. rewrite Hp. simpl.
    apply parse_shape in Hp as (bs & i & -> & _).
    unfold top_level_check. simpl in *.
    destruct Hbad as [Hi | (final & Hl & Hr)].
    + rewrite (bool_decide_eq_true_2 _ Hi). reflexivity.
    + rewrite Hl, (bool_decide_eq_true_2 _ Hr).
      destruct (bool_decide (i <> None)); reflexivity.
Qed.

Lemma load_program_joined : load program_joined = Ok file_joined.
Proof. vm_compute. reflexivity. Qed.

Lemma top_level_boundary_has_no_arrow_witness :
  (left file_joined = None /\ right file_joined = None /\ inner file_joined = None /\
   (forall first, head (blocks file_joined) = Some first -> left first = None) /\
   (forall final, last (blocks file_joined) = Some final -> right final = None))
  /\
  load "a ->>" = Panic "Arrows are not allowed at top-level block".
Proof.
  split.
  - exact (proj1 (top_level_boundary_has_no_arrow program_joined)
             file_joined load_program_joined).
  - refine (proj2 (top_level_boundary_has_no_arrow "a ->>")
              [(INSTANCE, "a"); (ARROW, "->>")]
              (BlockBranch None None [Call None (Some (mkArrow 3 2 1)) "a" []] None)
              eq_refl eq_refl _).
    right. exists (Call None (Some (mkArrow 3 2 1)) "a" []).
    split; [reflexivity | discriminate].
Defined.

(** C4, as the specification words it, fails on [a -> b]: the program is
    accepted, and the top-level member [a] carries an arrow on its right
    border (as [b] does on its left one). *)
Lemma top_level_members_may_carry_arrows :
  load program_joined = Ok file_joined /\
  exists member, In member (blocks file_joined) /\ right member <> None.
Proof.
  split; [exact load_program_joined|].
  exists (Call None (Some (mkArrow 1 1 1)) "a" []). split; [left; reflexivity | discriminate].
Qed.

(** ** The boundary checks *)

(** The kinds of arrow the checks at the end of [parse] let through: on the
    first member's left border no arrow, LEFT_SEND or LEFT_JUMP; on the last
    member's right border no arrow, LEFT_SEND or RIGHT_JUMP. *)
Lemma validate_accepts t first final :
  head (t_blocks t) = Some first -> last (t_blocks t) = Some final ->
  (forall a, left first = Some a -> akind a < 4) ->
  (forall a, right final = Some a -> akind a < 4) ->
  (exists f, validate t = Ok f) <->
  In (option_map akind (left first)) [None; Some LEFT_SEND; Some LEFT_JUMP] /\
  In (option_map akind (right final)) [None; Some LEFT_SEND; Some RIGHT_JUMP].
Proof.
  intros Hh Hl Hk1 Hk2. unfold validate. rewrite Hl.
  destruct (t_blocks t) as [|x rest]; [discriminate|]. injection Hh as ->. simpl.
  destruct (left first) as [[k1 h1 d1]|]; destruct (right final) as [[k2 h2 d2]|]; simpl.
  - specialize (Hk1 _ eq_refl). specialize (Hk2 _ eq_refl). simpl in *.
    destruct k1 as [|[|[|[|?]]]]; try lia;
      destruct k2 as [|[|[|[|?]]]]; try lia; simpl;
      (split; [intros [f H]; try discriminate; intuition
              | intros [H1 H2]; simpl in *; try (eexists; reflexivity);
                intuition discriminate]).
  - specialize (Hk1 _ eq_refl). simpl in *.
    destruct k1 as [|[|[|[|?]]]]; try lia; simpl;
      (split; [intros [f H]; try discriminate; intuition
              | intros [H1 H2]; simpl in *; try (eexists; reflexivity);
                intuition discriminate]).
  - specialize (Hk2 _ eq_refl). simpl in *.
    destruct k2 as [|[|[|[|?]]]]; try lia; simpl;
      (split; [intros [f H]; try discriminate; intuition
              | intros [H1 H2]; simpl in *; try (eexists; reflexivity);
                intuition discriminate]).
  - split; [intuition | intros _; eexists; reflexivity].
Qed.

(** C5 on [{ < a }] and [{ a < }]: a left-pointing send arrow (kind 0) on
    the first member's left border, and on the last member's right border,
    passes the checks at the end of [parse], and the program is accepted.
    The right-pointing send arrow is refused on both borders with the error
    for a non-jump arrow, and the jump arrows that point the wrong way with
    the errors for their direction. *)
Theorem left_send_arrow_passes_boundary_checks :
  load "{ < a }"
  = Ok (BlockBranch None None
          [BlockBranch None None [Call (Some (mkArrow LEFT_SEND 1 0)) None "a" []]
             (Some (mkArrow LEFT_SEND 1 0))] None) /\
  load "{ a < }"
  = Ok (BlockBranch None None
          [BlockBranch None None [Call None (Some (mkArrow LEFT_SEND 1 0)) "a" []]
             None] None) /\
  mode (mkArrow LEFT_SEND 1 0) = Send /\
  direction (mkArrow LEFT_SEND 1 0) = TowardLeft /\
  load "{ > a }" = Panic "Non-jump arrow at block border" /\
  load "{ a > }" = Panic "Non-jump arrow at block border" /\
  load "{ >> a }" = Panic "Right arrow at left block border" /\
  load "{ a << }" = Panic "Left arrow at right block border".
Proof.
  repeat split; vm_compute; reflexivity.
Qed.

(** ** [split] and [join] *)

Lemma append_nil (s : string) : "" +:+ s = s.
Proof. reflexivity. Qed.

Lemma append_cons (c : ascii) (r s : string) : String c r +:+ s = String c (r +:+ s).
Proof. reflexivity. Qed.

Lemma append_empty_r (s : string) : s +:+ "" = s.
Proof.
  induction s as [|c r IH]; [reflexivity|]. rewrite append_cons, IH. reflexivity.
Qed.

Lemma append_assoc (a b c : string) : (a +:+ b) +:+ c = a +:+ (b +:+ c).
Proof.
  induction a as [|x r IH]; [reflexivity|]. rewrite !append_cons, IH. reflexivity.
Qed.

Lemma split_from_nonempty s : forall cur, JS.split_from cur s <> [].
Proof.
  induction s as [|c r IH]; intros cur; simpl; [discriminate|].
  destruct (JS.eqc c JS.newline); [discriminate | apply IH].
Qed.

Lemma join_cons x xs : xs <> [] -> JS.join (x :: xs) = x +:+ String JS.newline (JS.join xs).
Proof. destruct xs; [contradiction | reflexivity]. Qed.

(** [s.split('\n').join('\n')] is [s]. *)
Lemma join_split_from s : forall cur, JS.join (JS.split_from cur s) = cur +:+ s.
Proof.
  induction s as [|c r IH]; intros cur; simpl.
  - symmetry. apply append_empty_r.
  - destruct (JS.eqc c JS.newline) eqn:E.
    + rewrite join_cons by apply split_from_nonempty. rewrite IH, append_nil.
      unfold JS.eqc in E. apply Ascii.eqb_eq in E. subst c. reflexivity.
    + rewrite IH, append_assoc, append_cons, append_nil. reflexivity.
Qed.

Lemma split_from_one_line v : forall cur,
  one_line v -> JS.split_from cur v = [cur +:+ v].
Proof.
  unfold one_line. induction v as [|c r IH]; intros cur H; simpl in *.
  - rewrite append_empty_r. reflexivity.
  - apply orb_false_iff in H as [Hc Hr]. rewrite Hc.
    rewrite IH by assumption. rewrite append_assoc, append_cons, append_nil. reflexivity.
Qed.

(** Splitting a text that ends in a newline and a one-line item. *)
Lemma split_from_pushed s v : forall cur,
  one_line v ->
  JS.split_from cur (s +:+ String JS.newline v) = JS.split_from cur s ++ [v].
Proof.
  induction s as [|c r IH]; intros cur Hv.
  - rewrite append_nil. simpl.
    rewrite (split_from_one_line v "" Hv), append_nil. reflexivity.
  - rewrite append_cons. simpl.
    destruct (JS.eqc c JS.newline); simpl; rewrite IH by assumption; reflexivity.
Qed.

Lemma or_str_some v : JS.or_str (Some v) "" = v.
Proof. destruct v; reflexivity. Qed.

Section Builtins.

Context {js : JSNumber}.
Variable live : bool.

(** [loop] with no argument, then [pop], on a one-line stream. *)
Lemma pop_after_loop v w :
  one_line v ->
  pop_builtin (loop_builtin v [] w) = (v, w).
Proof.
  intros Hv. unfold pop_builtin, loop_builtin, JS.split, JS.pop, JS.slice_init. simpl.
  rewrite (split_from_pushed (storage w) v "" Hv).
  rewrite last_snoc, removelast_last, or_str_some.
  change (JS.split_from "" (storage w)) with (JS.split_from EmptyString (storage w)).
  rewrite join_split_from, append_nil. destruct w; reflexivity.
Qed.

Lemma join_snoc xs v :
  xs <> [] -> JS.join (xs ++ [v]) = JS.join xs +:+ String JS.newline v.
Proof.
  induction xs as [|x r IH]; intros Hne; [contradiction|].
  destruct r as [|y r'].
  - reflexivity.
  - change ((x :: y :: r') ++ [v]) with (x :: ((y :: r') ++ [v])).
    rewrite join_cons by (destruct r'; discriminate).
    rewrite IH by discriminate.
    rewrite (join_cons x (y :: r')) by discriminate.
    rewrite append_assoc, append_cons. reflexivity.
Qed.

(** [pop] after a [loop] whose last pushed item is the one-line text [v]. *)
Lemma pop_after_loop_last s arguments v w :
  last (s :: arguments) = Some v -> one_line v ->
  fst (pop_builtin (loop_builtin s arguments w)) = v.
Proof.
  intros Hlast Hv. apply last_Some in Hlast as [init Hinit].
  unfold pop_builtin, loop_builtin, set_storage, JS.split, JS.pop.
  cbn [fst storage]. rewrite Hinit.
  destruct init as [|i0 init'].
  - change (JS.join ([] ++ [v])) with v.
    rewrite (split_from_pushed (storage w) v "" Hv), last_snoc. apply or_str_some.
  - rewrite join_snoc by discriminate.
    rewrite <- append_cons, <- append_assoc.
    rewrite (split_from_pushed _ v "" Hv), last_snoc. apply or_str_some.
Qed.

(** C8 (as amended): for every text [v] without a newline, [loop] with no
    argument on the stream [v] followed by [pop] (whatever the stream, the
    arguments and the task of the [pop], and with no other storage operation
    in between) makes [v] the new stream, and leaves the shared storage as
    it was before the [loop]; and when the [loop] has arguments, the [pop]
    yields the last of them, the item pushed last, if that is one line. *)
Theorem loop_then_pop_returns_one_line_item
    (registry : list Extension) (v : string) (w : World)
    (c1 c2 : Cursor) (m1 m2 : gmap Cursor string) (s2 : string) (args2 : list string) :
  one_line v ->
  (exists w1,
      dispatch live registry c1 "loop" [] v m1 w = Settled v m1 w1 /\
      dispatch live registry c2 "pop" args2 s2 m2 w1 = Settled v m2 w)
  /\
  (forall s arguments,
      last (s :: arguments) = Some v ->
      exists w1 w2,
        dispatch live registry c1 "loop" arguments s m1 w = Settled s m1 w1 /\
        dispatch live registry c2 "pop" args2 s2 m2 w1 = Settled v m2 w2).
Proof.
  intros Hv. split.
  - exists (loop_builtin v [] w). split; [reflexivity|].
    change (dispatch live registry c2 "pop" args2 s2 m2 (loop_builtin v [] w))
      with (Settled (fst (pop_builtin (loop_builtin v [] w))) m2
                    (snd (pop_builtin (loop_builtin v [] w)))).
    rewrite (pop_after_loop v w Hv). reflexivity.
  - intros s arguments Hlast.
    exists (loop_builtin s arguments w), (snd (pop_builtin (loop_builtin s arguments w))).
    split; [reflexivity|].
    change (dispatch live registry c2 "pop" args2 s2 m2 (loop_builtin s arguments w))
      with (Settled (fst (pop_builtin (loop_builtin s arguments w))) m2
                    (snd (pop_builtin (loop_builtin s arguments w)))).
    rewrite (pop_after_loop_last s arguments v w Hlast Hv). reflexivity.
Qed.

End Builtins.

Lemma loop_then_pop_returns_one_line_item_witness :
  (exists w1,
      dispatch false [] [0] "loop" [] "item" ∅ World0 = Settled "item" ∅ w1 /\
      dispatch false [] [1] "pop" [] "" ∅ w1 = Settled "item" ∅ World0)
  /\
  (exists w1 w2,
      dispatch false [] [0] "loop" ["x"; "item"] "first" ∅ World0 = Settled "first" ∅ w1 /\
      dispatch false [] [1] "pop" [] "" ∅ w1 = Settled "item" ∅ w2).
Proof.
  pose (T := loop_then_pop_returns_one_line_item false [] "item" World0 [0] [1] ∅ ∅ "" []
               eq_refl).
  split.
  - exact (proj1 T).
  - exact (proj2 T "first" ["x"; "item"] eq_refl).
Defined.

(** C8, as the specification words it, fails on a text of two lines: after
    [loop] on the stream "a", newline, "b", the [pop] yields "b" only. *)
Lemma loop_then_pop_splits_lines :
  let v := "a" +:+ String JS.newline "b" in
  exists w1,
    dispatch false [] [0] "loop" [] v ∅ World0 = Settled v ∅ w1 /\
    dispatch false [] [1] "pop" [] "" ∅ w1
    = Settled "b" ∅ (mkWorld (String JS.newline "a") "" [] 0) /\
    "b" <> v.
Proof.
  eexists. split; [reflexivity|]. split; [vm_compute; reflexivity | discriminate].
Qed.

(** The body of the [try] in [div] returns normally on every input: the
    handler that stores "NaN" never runs. *)
Lemma div_body_returns `{JSNumber} stream arguments :
  div_body stream arguments
  = inr (num_String (num_div (Number stream) (divisor arguments))).
Proof. reflexivity. Qed.

(** C9: for every stream and argument list, [div] replaces the stream with
    the text of the quotient of the stream, read as a number, by
    [arguments[0]], read as a number, or by 0 when there is no (or an empty)
    first argument; the map and the shared state are left alone.  The
    handler of a failed computation gives the text "NaN".  On IEEE 754
    doubles the quotient is the text "NaN" when an operand is no number and
    for 0 / 0 and Infinity / Infinity; a division by 0 of anything else is
    no failure and gives "Infinity" or "-Infinity". *)
Theorem div_yields_textual_quotient :
  (forall (js : JSNumber) live c stream arguments m w,
      dispatch live extensions c "div" arguments stream m w
      = Settled (num_String
                   (num_div (Number stream)
                      match arguments with
                      | [] => num_zero
                      | a :: _ => if String.eqb a "" then num_zero else Number a
                      end)) m w) /\
  (forall (js : JSNumber) (e : string), try_or_NaN (inl e) = "NaN") /\
  (forall stream arguments,
      div_builtin (js := js_reference) stream arguments
      = match Float64.Number stream, divisor (js := js_reference) arguments with
        | S754_nan, _ | _, S754_nan => "NaN"
        | S754_zero _, S754_zero _ | S754_infinity _, S754_infinity _ => "NaN"
        | S754_finite s _ _, S754_zero s'
        | S754_infinity s, S754_zero s'
        | S754_infinity s, S754_finite s' _ _ => if xorb s s' then "-Infinity" else "Infinity"
        | S754_zero _, _ | S754_finite _ _ _, S754_infinity _ => "0"
        | S754_finite _ _ _, S754_finite _ _ _ =>
            Float64.to_string
              (SFdiv Float64.prec Float64.emax (Float64.Number stream)
                 (divisor (js := js_reference) arguments))
        end) /\
  div_builtin "6" ["3"] = "2" /\
  div_builtin "7" ["2"; "9"] = "3.5" /\
  div_builtin "1" ["3"] = "0.3333333333333333" /\
  div_builtin "-6" ["4"] = "-1.5" /\
  div_builtin "5" [] = "Infinity" /\
  div_builtin "5" ["0"] = "Infinity" /\
  div_builtin "-5" [] = "-Infinity" /\
  div_builtin "0" [] = "NaN" /\
  div_builtin "abc" ["2"] = "NaN" /\
  div_builtin "2" ["abc"] = "NaN".
Proof.
  split; [intros; destruct arguments; reflexivity|].
  split; [reflexivity|].
  split.
  - intros stream arguments.
    unfold div_builtin, try_or_NaN. rewrite div_body_returns.
    change (@Number js_reference stream) with (Float64.Number stream).
    change (@num_div js_reference) with (SFdiv Float64.prec Float64.emax).
    change (@num_String js_reference) with Float64.to_string.
    destruct (Float64.Number stream) as [sx|sx| |sx mx ex],
             (divisor (js := js_reference) arguments) as [sy|sy| |sy my ey];
      try reflexivity; destruct sx, sy; reflexivity.
  - repeat split; vm_compute; reflexivity.
Qed.

(** ** The extension registry *)

Section Registry.

Context {js : JSNumber}.
Variable live : bool.
Variable answers : nat -> string.

Lemma extend_iter n : Nat.iter n extend extensions = [].
Proof. induction n as [|n IH]; simpl; [reflexivity | rewrite IH; reflexivity]. Qed.

Lemma dispatch_unknown c name arguments s m w :
  ~ In name builtin_names ->
  dispatch live extensions c name arguments s m w = Settled s m w.
Proof.
  intros H. unfold dispatch.
  repeat match goal with
         | |- context [String.eqb name ?k] =>
             destruct (String.eqb_spec name k) as [-> | _];
             [exfalso; apply H; unfold builtin_names; simpl; tauto|]
         end.
  reflexivity.
Qed.

Lemma dispatch_never_extension c name arguments s m w r :
  dispatch live extensions c name arguments s m w <> NeedExtension r.
Proof.
  unfold dispatch.
  repeat match goal with
         | |- context [String.eqb name ?k] => destruct (String.eqb name k); [discriminate|]
         end.
  discriminate.
Qed.

Lemma Forall_map_all {A B} (P : B -> Prop) (f : A -> B) (l : list A) :
  (forall x, P (f x)) -> Forall P (map f l).
Proof. intros H. induction l; simpl; constructor; auto. Qed.

Lemma settle_world file cfg i t b s m w : world (settle file cfg i t b s m w) = w.
Proof. unfold settle. destruct (o_next _); reflexivity. Qed.

Lemma settle_no_extension file cfg i t b s m w :
  no_extension_call cfg -> no_extension_call (settle file cfg i t b s m w).
Proof.
  unfold no_extension_call, settle. intros H.
  assert (Hts : Forall (fun t => forall r, phase t <> AwaitExtension r)
                  (tasks cfg ++ match o_detached (resolve file (endingBlock t) (block t) b s m) with
                                | Some (c, s') => [detached_process c s']
                                | None => []
                                end)).
  { apply Forall_app. split; [exact H|].
    destruct (o_detached _) as [[c' s']|]; [|constructor].
    constructor; [intros r; discriminate | constructor]. }
  assert (Hof : forall g, Forall (fun t => forall r, phase t <> AwaitExtension r) (of_process g)).
  { intros [c'| |]; simpl; [|constructor..].
    constructor; [intros r; discriminate | constructor]. }
  destruct (o_next _) as [|c'|g1 g2|]; simpl.
  - apply Forall_insert; [exact Hts | intros r; discriminate].
  - apply Forall_insert; [exact Hts | intros r; discriminate].
  - rewrite !Forall_app. repeat split; [|apply Hof..].
    apply Forall_insert; [exact Hts|]. intros r. simpl.
    destruct (is_throw g1 || is_throw g2); discriminate.
  - apply Forall_insert; [exact Hts | intros r; discriminate].
Qed.

Lemma step_no_extension file i cfg cfg' :
  no_extension_call cfg -> step live answers file i cfg = Some cfg' ->
  no_extension_call cfg'.
Proof.
  intros H Hs. unfold step in Hs.
  destruct (tasks cfg !! i) as [t|] eqn:Et; [|discriminate]. simpl in Hs.
  destruct (block_at file (block t)) as [b|]; [|discriminate]. simpl in Hs.
  assert (Hset : forall p, (forall r, p <> AwaitExtension r) ->
                 no_extension_call (mkConfig (world cfg) (<[i := set_phase p t]> (tasks cfg)))).
  { intros p Hp. unfold no_extension_call. simpl.
    apply Forall_insert; [exact H | exact Hp]. }
  destruct (phase t) as [|ids|k|[err|res]|handles|m|] eqn:Ep.
  - destruct b as [l r bs inn | l r name arguments | l r str].
    + injection Hs as <-. unfold no_extension_call. simpl.
      apply Forall_app. split.
      * apply Forall_insert; [exact H | intros ?; discriminate].
      * apply Forall_map_all. intros k ?; discriminate.
    + pose proof (dispatch_never_extension (block t) name arguments (stream t) (tmap t)
                    (world cfg)) as Hd.
      destruct (dispatch _ _ _ _ _ _ _ _) as [s m w | prompt | res].
      * injection Hs as <-. apply settle_no_extension, H.
      * injection Hs as <-. unfold no_extension_call. simpl.
        apply Forall_insert; [exact H | intros ?; discriminate].
      * exfalso. exact (Hd res eq_refl).
    + injection Hs as <-. apply settle_no_extension, H.
  - destruct (existsb _ ids).
    + injection Hs as <-. apply Hset. intros ?; discriminate.
    + destruct (mapM _ ids); [|discriminate]. injection Hs as <-.
      apply settle_no_extension, H.
  - injection Hs as <-. apply settle_no_extension, H.
  - injection Hs as <-. apply Hset. intros ?; discriminate.
  - injection Hs as <-. apply settle_no_extension, H.
  - destruct (existsb _ handles).
    + injection Hs as <-. apply Hset. intros ?; discriminate.
    + destruct (mapM _ handles) as [[|first rest]|]; try discriminate.
      injection Hs as <-. unfold no_extension_call. simpl.
      apply Forall_insert; [exact H | intros ?; discriminate].
  - discriminate.
  - discriminate.
Qed.

Lemma run_no_extension file schedule : forall cfg cfg',
  no_extension_call cfg -> run live answers file schedule cfg = Some cfg' ->
  no_extension_call cfg'.
Proof.
  induction schedule as [|i rest IH]; intros cfg cfg' H Hr; simpl in Hr.
  - injection Hr as <-. exact H.
  - destruct (step live answers file i cfg) as [cfg1|] eqn:Es; [|discriminate].
    simpl in Hr. eapply IH; [|exact Hr]. eapply step_no_extension; eauto.
Qed.

Lemma start_no_extension order : no_extension_call (start order).
Proof.
  unfold no_extension_call, start. simpl.
  apply Forall_map_all. intros k ?; discriminate.
Qed.

(** C10: the registry is empty and [extend] leaves it so; hence a Call
    whose name is none of the built-in commands changes neither the stream
    of its task, nor the task's map, nor the shared state (storage, output,
    console), and in a run its step goes straight on to the move of the
    block; and in no configuration a run can reach does a task wait for an
    extension command, so that the fatal error of a failing handler cannot
    arise. *)
Theorem unknown_call_is_silent_noop :
  (extensions = [] /\ (forall registry, extend registry = registry) /\
   (forall n, Nat.iter n extend extensions = []))
  /\
  (forall c name arguments s m w,
      ~ In name builtin_names ->
      dispatch live extensions c name arguments s m w = Settled s m w)
  /\
  (forall file i cfg t l r name arguments,
      tasks cfg !! i = Some t -> phase t = Ready ->
      block_at file (block t) = Some (Call l r name arguments) ->
      ~ In name builtin_names ->
      step live answers file i cfg
      = Some (settle file cfg i t (Call l r name arguments) (stream t) (tmap t) (world cfg))
      /\ world (settle file cfg i t (Call l r name arguments) (stream t) (tmap t) (world cfg))
         = world cfg)
  /\
  (forall file order schedule cfg,
      run live answers file schedule (start order) = Some cfg ->
      no_extension_call cfg).
Proof.
  split; [|split; [|split]].
  - split; [reflexivity|]. split; [reflexivity | apply extend_iter].
  - intros. apply dispatch_unknown. assumption.
  - intros file i cfg t l r name arguments Ht Hp Hb Hn. split; [|apply settle_world].
    unfold step. rewrite Ht. simpl. rewrite Hb. simpl. rewrite Hp.
    rewrite dispatch_unknown by assumption. reflexivity.
  - intros file order schedule cfg Hr.
    eapply run_no_extension; [apply start_no_extension | exact Hr].
Qed.

End Registry.

Lemma unknown_call_is_silent_noop_witness :
  dispatch false extensions [0] "frobnicate" ["x"] "kept" ∅ World0 = Settled "kept" ∅ World0
  /\
  (step false (fun _ => "") file_weights 0 (start [1])
   = Some (settle file_weights (start [1]) 0 (new_process [1])
             (Call (Some (mkArrow 0 1 1)) (Some (mkArrow 1 1 2)) "b" []) "" ∅ World0)
   /\ world (settle file_weights (start [1]) 0 (new_process [1])
               (Call (Some (mkArrow 0 1 1)) (Some (mkArrow 1 1 2)) "b" []) "" ∅ World0)
      = World0)
  /\
  no_extension_call
    (mkConfig World0 [mkTask [0] (Some []) "" ∅ (Returned ∅)]).
Proof.
  pose (T := unknown_call_is_silent_noop (js := js_reference) false (fun _ => "")).
  split; [|split].
  - refine (proj1 (proj2 T) [0] "frobnicate" ["x"] "kept" ∅ World0 _).
    unfold builtin_names. simpl. intros H.
    repeat (destruct H as [H | H]; [discriminate H|]). exact H.
  - refine (proj1 (proj2 (proj2 T)) file_weights 0 (start [1]) (new_process [1])
              (Some (mkArrow 0 1 1)) (Some (mkArrow 1 1 2)) "b" [] eq_refl eq_refl eq_refl _).
    unfold builtin_names. simpl. intros H.
    repeat (destruct H as [H | H]; [discriminate H|]). exact H.
  - exact (proj2 (proj2 (proj2 T)) file_weights [1] [0; 0] _ eq_refl).
Defined.

(** ** Programs without arrows *)

Lemma find_close_Forall (P : Token -> Prop) tokens : forall level span after,
  Forall P tokens -> find_close tokens level = Some (span, after) ->
  Forall P span /\ Forall P after.
Proof.
  induction tokens as [|tok rest IH]; intros level span after HF H; simpl in H;
    [discriminate|].
  inversion HF as [|? ? Htok Hrest]; subst.
  assert (Hrec : forall lv, option_map (fun p => (tok :: fst p, snd p)) (find_close rest lv)
                            = Some (span, after) -> Forall P span /\ Forall P after).
  { intros lv Hm. destruct (find_close rest lv) as [[sp af]|] eqn:E; [|discriminate].
    simpl in Hm. injection Hm as <- <-.
    destruct (IH _ _ _ Hrest E). split; [constructor|]; assumption. }
  destruct (bool_decide (fst tok = BRACKET)); [|exact (Hrec _ H)].
  destruct (String.eqb (snd tok) "{"); [exact (Hrec _ H)|].
  destruct level; [|exact (Hrec _ H)].
  injection H as <- <-. split; [constructor | assumption].
Qed.

Lemma plain_first_left t : plain t -> first_left t.
Proof.
  intros [Hi [Hb | (b & Hb & Hl & _)]]; unfold first_left; rewrite Hb; [exact I|].
  congruence.
Qed.

Lemma plain_single (b : Block) :
  left b = None -> right b = None -> plain (mkTree [b] None).
Proof. intros Hl Hr. split; [reflexivity|]. right. exists b. auto. Qed.

(** In a text without arrow tokens every group that [parse] builds has at
    most one member, and no arrow anywhere on it. *)
Lemma parse_loop_plain fuel : forall tokens t f,
  Forall no_arrow_token tokens -> plain t -> parse_loop fuel tokens t = Ok f ->
  exists t', plain t' /\ validate t' = Ok f.
Proof.
  induction fuel as [|fuel IH]; intros tokens t f HF Hp H; [discriminate|].
  destruct tokens as [|tok rest]; simpl in H; [exists t; auto|].
  inversion HF as [|? ? Htok Hrest]; subst. unfold no_arrow_token in Htok.
  destruct t as [bs inn]. destruct Hp as [Hi Hb]. simpl in Hi, Hb. subst inn.
  assert (Hleaf : forall blk, left blk = None -> right blk = None ->
            bs = [] ->
            parse_loop fuel rest (tree_append blk (mkTree bs None)) = Ok f ->
            exists t', plain t' /\ validate t' = Ok f).
  { intros blk Hl Hr -> Hrun. eapply IH; [exact Hrest| |exact Hrun].
    unfold tree_append. simpl. apply plain_single; destruct blk; simpl in *; auto. }
  assert (Hmerge : forall tk, (tk = INSTANCE \/ tk = STRING) -> fst tok = tk ->
            (if bool_decide (bs = []) || negb (last_right_is_null (mkTree bs None))
             then parse_loop fuel rest
                    (tree_append (if bool_decide (fst tok = STRING)
                                  then StringBlock None None (snd tok)
                                  else Call None None (snd tok) []) (mkTree bs None))
             else match last bs with
                  | Some (StringBlock l r s) =>
                      parse_loop fuel rest
                        (mkTree (update_last
                                   (fun _ => StringBlock l r (s ++ String JS.newline (snd tok)))
                                   bs) None)
                  | Some (Call l r n args) =>
                      parse_loop fuel rest
                        (mkTree (update_last (fun _ => Call l r n (args ++ [snd tok])) bs) None)
                  | _ => Panic "Token after block"
                  end) = Ok f ->
            exists t', plain t' /\ validate t' = Ok f).
  { intros tk _ _ Hrun.
    destruct Hb as [-> | (b & -> & Hl & Hr)].
    - simpl in Hrun. apply (Hleaf _) in Hrun; auto;
        destruct (bool_decide (fst tok = STRING)); reflexivity.
    - unfold last_right_is_null in Hrun. simpl in Hrun.
      rewrite (bool_decide_eq_true_2 _ Hr) in Hrun. simpl in Hrun.
      destruct b as [l r bs' i | l r n args | l r s]; simpl in Hl, Hr; subst;
        try discriminate;
        (eapply IH; [exact Hrest| |exact Hrun]); apply plain_single; reflexivity. }
  destruct (fst tok) eqn:Etok.
  - apply (Hmerge INSTANCE); auto.
  - apply (Hmerge STRING); auto.
  - contradiction.
  - simpl in H.
    destruct Hb as [-> | (b & -> & Hl & Hr)].
    + simpl in H.
      destruct (String.eqb (snd tok) "{"); [|discriminate].
      destruct (find_close rest 0) as [[[|s0 span] after]|] eqn:E; try discriminate.
      destruct (find_close_Forall _ _ _ _ _ Hrest E) as [Hspan Hafter].
      destruct (parse_loop fuel (s0 :: span) (mkTree [] None)) as [sub| |] eqn:Esub;
        try discriminate.
      simpl in H.
      apply parse_loop_shape in Esub as (t' & _ & Hv); [|exact I].
      apply validate_Ok in Hv. subst sub.
      eapply IH; [exact Hafter| |exact H].
      unfold tree_append. simpl. apply plain_single; reflexivity.
    + unfold last_right_is_null in H. simpl in H.
      rewrite (bool_decide_eq_true_2 _ Hr) in H. discriminate.
Qed.

Lemma parse_plain tokens f :
  Forall no_arrow_token tokens -> parse tokens = Ok f ->
  f = BlockBranch None None [] None \/
  exists b, f = BlockBranch None None [b] None /\ left b = None /\ right b = None.
Proof.
  intros HF H. unfold parse in H.
  apply parse_loop_plain in H as (t' & [Hi Hb] & Hv); auto.
  - apply validate_Ok in Hv. subst f. rewrite Hi.
    destruct Hb as [-> | (b & -> & Hl & Hr)]; [left; reflexivity|].
    right. exists b. auto.
  - split; [reflexivity | left; reflexivity].
Qed.

Section Chain.

Context {js : JSNumber}.
Variable answers : nat -> string.

(** Top-level dispatch is the sequential effect, but for the suspension of
    [input]. *)
Lemma dispatch_top i name arguments s m w :
  dispatch false extensions [i] name arguments s m w
  = if String.eqb name "input" then NeedInput (s +:+ JS.join arguments)
    else Settled (fst (builtin_effect false answers name arguments (s, w))) m
                 (snd (builtin_effect false answers name arguments (s, w))).
Proof.
  destruct (String.eqb_spec name "nothing") as [-> | N1]; [reflexivity|].
  destruct (String.eqb_spec name "input") as [-> | N2]; [reflexivity|].
  destruct (String.eqb_spec name "equals") as [-> | N3]; [reflexivity|].
  destruct (String.eqb_spec name "sum") as [-> | N4]; [reflexivity|].
  destruct (String.eqb_spec name "div") as [-> | N5]; [reflexivity|].
  destruct (String.eqb_spec name "mod") as [-> | N6]; [reflexivity|].
  destruct (String.eqb_spec name "loop") as [-> | N7]; [reflexivity|].
  destruct (String.eqb_spec name "pop") as [-> | N8]; [reflexivity|].
  destruct (String.eqb_spec name "done") as [-> | N9]; [reflexivity|].
  destruct (String.eqb_spec name "print") as [-> | N10]; [reflexivity|].
  unfold dispatch, builtin_effect.
  repeat match goal with
         | H : name <> ?k |- _ => apply String.eqb_neq in H; rewrite !H; clear H
         end.
  reflexivity.
Qed.

Lemma builtin_effect_input arguments s w :
  builtin_effect false answers "input" arguments (s, w) = (answers (asked w), bump_asked w).
Proof. reflexivity. Qed.

Lemma run_cons file i rest cfg cfg1 :
  step false answers file i cfg = Some cfg1 ->
  run false answers file (i :: rest) cfg = run false answers file rest cfg1.
Proof. intros H. simpl. rewrite H. reflexivity. Qed.

(** *** The members of a chain *)

Lemma send_right_inv a :
  send_right a = true -> exists r, a = Some r /\ akind r = RIGHT_SEND /\ heads r = 1.
Proof.
  destruct a as [r|]; [|discriminate]. simpl. intros H.
  apply andb_prop in H as [Hk Hh].
  apply Nat.eqb_eq in Hk. apply Nat.eqb_eq in Hh. eauto.
Qed.

Lemma no_arrow_inv a : no_arrow a = true -> a = None.
Proof. destruct a; [discriminate | reflexivity]. Qed.

Lemma chained_from_inv f b rest :
  chained_from f (b :: rest) = true ->
  is_branch b = false /\
  (if f then no_arrow (left b) else send_right (left b)) = true /\
  match rest with
  | [] => no_arrow (right b)
  | _ :: _ => send_right (right b)
  end = true /\
  chained_from false rest = true.
Proof.
  simpl. intros H.
  apply andb_prop in H as [H H4]. apply andb_prop in H as [H H3].
  apply andb_prop in H as [H1 H2]. apply negb_true_iff in H1. auto.
Qed.

(** No member of a chain has an arrow that leaves it to the left. *)
Lemma chained_left_inward f b rest :
  chained_from f (b :: rest) = true -> outward 0 (left b) = None.
Proof.
  intros H. apply chained_from_inv in H as (_ & Hl & _ & _).
  destruct f.
  - apply no_arrow_inv in Hl. rewrite Hl. reflexivity.
  - apply send_right_inv in Hl as (r & -> & Hk & _). simpl. rewrite Hk. reflexivity.
Qed.

(** Only the first member of a chain is a begin block. *)
Lemma begin_from_inner rest : forall i,
  chained_from false rest = true -> begin_from i rest = [].
Proof.
  induction rest as [|b rest IH]; intros i H; [reflexivity|].
  apply chained_from_inv in H as (_ & Hl & _ & Hrest).
  apply send_right_inv in Hl as (r & Hl & Hk & _).
  simpl. rewrite Hl. simpl. rewrite Hk. simpl. apply IH, Hrest.
Qed.

Lemma begin_chain file :
  chained (blocks file) = true ->
  beginBlockIndex file = match blocks file with [] => [] | _ :: _ => [0] end.
Proof.
  unfold chained, beginBlockIndex. destruct (blocks file) as [|b rest]; [reflexivity|].
  intros H. apply chained_from_inv in H as (_ & Hl & Hr & Hrest).
  apply no_arrow_inv in Hl. simpl. rewrite Hl. simpl.
  assert (Hp : points_in (right b) 1 = false).
  { destruct rest.
    - apply no_arrow_inv in Hr. rewrite Hr. reflexivity.
    - apply send_right_inv in Hr as (r & -> & Hk & _). simpl. rewrite Hk. reflexivity. }
  rewrite Hp. rewrite (begin_from_inner rest 1 Hrest). reflexivity.
Qed.

Lemma block_at_member file pre b post :
  blocks file = pre ++ b :: post -> block_at file [length pre] = Some b.
Proof.
  intros H. unfold block_at. simpl. rewrite H.
  rewrite nth_error_app2 by lia. rewrite Nat.sub_diag. reflexivity.
Qed.

(** The move after a member of a chain: one block to the right along its
    send arrow, and the end of the task after the last member. *)
Lemma resolve_chain file pre b post f s m :
  blocks file = pre ++ b :: post -> chained_from f (b :: post) = true ->
  resolve file (Some []) [length pre] b s m
  = mkOutcome s None
      match post with [] => Exit | _ :: _ => Goto [length pre + 1] end.
Proof.
  intros Hfile Hc. unfold resolve.
  rewrite (chained_left_inward _ _ _ Hc).
  apply chained_from_inv in Hc as (_ & _ & Hr & _).
  destruct post as [|b' post'].
  - apply no_arrow_inv in Hr. rewrite Hr. reflexivity.
  - apply send_right_inv in Hr as (r & -> & Hk & Hh). simpl outward.
    rewrite Hk. simpl. rewrite Hh. simpl.
    unfold getBlockOf. simpl. unfold siblings, block_at. simpl. rewrite Hfile.
    rewrite length_app. simpl.
    replace (length pre =? length pre + S (S (length post')) - 1) with false
      by (symmetry; apply Nat.eqb_neq; lia).
    reflexivity.
Qed.

Lemma settle_chain file pre b post f cfg t t' s m w :
  blocks file = pre ++ b :: post -> chained_from f (b :: post) = true ->
  block t = [length pre] -> endingBlock t = Some [] -> tasks cfg = [t'] ->
  settle file cfg 0 t b s m w
  = mkConfig w [match post with
                | [] => mkTask [length pre] (Some []) s m (Returned m)
                | _ :: _ => mkTask [length pre + 1] (Some []) s m Ready
                end].
Proof.
  intros Hfile Hc Hb He Ht. unfold settle. rewrite Hb, He, Ht.
  rewrite (resolve_chain file pre b post f s m Hfile Hc).
  destruct post; reflexivity.
Qed.

(** *** The runs of a pool with one task *)

Lemma step_absent file i cfg :
  length (tasks cfg) = 1 -> step false answers file (S i) cfg = None.
Proof.
  intros H. unfold step.
  destruct (tasks cfg) as [|t [|t' ts]]; try discriminate. reflexivity.
Qed.

Lemma runs_to_step file cfg cfg1 final :
  length (tasks cfg) = 1 -> running cfg = 1 ->
  step false answers file 0 cfg = Some cfg1 ->
  runs_to false answers file cfg1 final -> runs_to false answers file cfg final.
Proof.
  intros Hlen Hrun Hstep [(schedule & cfg' & Hr & Hd) Hall]. split.
  - exists (0 :: schedule), cfg'. rewrite (run_cons _ _ _ _ _ Hstep). auto.
  - intros [|i rest] cfg'' Hr'.
    + injection Hr' as <-. split; [exact Hlen|]. rewrite Hrun. discriminate.
    + destruct i as [|i].
      * rewrite (run_cons _ _ _ _ _ Hstep) in Hr'. apply (Hall _ _ Hr').
      * simpl in Hr'. rewrite (step_absent file i cfg Hlen) in Hr'. discriminate.
Qed.

Lemma runs_to_finished file k s w : runs_to false answers file (finished k s w) w.
Proof.
  assert (Hstop : forall i, step false answers file i (finished k s w) = None).
  { intros [|i]; [|apply step_absent; reflexivity].
    unfold step, finished. simpl. destruct (block_at file [k]); reflexivity. }
  split.
  - exists [], (finished k s w). split; reflexivity.
  - intros [|i rest] cfg' Hr.
    + injection Hr as <-. split; [reflexivity|]. reflexivity.
    + simpl in Hr. rewrite Hstop in Hr. discriminate.
Qed.

(** The first segment of the task on a member of a chain: an [input]
    leaves it waiting, every other block brings it to the next member. *)
Lemma step_ready file pre b post f s w :
  blocks file = pre ++ b :: post -> chained_from f (b :: post) = true ->
  step false answers file 0 (ready (length pre) s w)
  = Some match b with
         | Call _ _ name _ =>
             if String.eqb name "input" then waiting (length pre) s w
             else arrive (length pre) post
                    (fst (block_effect false answers (s, w) b))
                    (snd (block_effect false answers (s, w) b))
         | _ => arrive (length pre) post
                  (fst (block_effect false answers (s, w) b))
                  (snd (block_effect false answers (s, w) b))
         end.
Proof.
  intros Hfile Hc. unfold step, ready. simpl.
  rewrite (block_at_member file pre b post Hfile). simpl.
  pose proof (chained_from_inv _ _ _ Hc) as (Hleaf & _).
  destruct b as [l r bs i | l r name arguments | l r str]; [discriminate| |].
  - rewrite dispatch_top.
    destruct (String.eqb name "input"); [reflexivity|].
    f_equal. erewrite settle_chain; try eassumption; try reflexivity.
    destruct post; reflexivity.
  - f_equal. erewrite settle_chain; try eassumption; try reflexivity.
    destruct post; reflexivity.
Qed.

(** The segment after the answer to an [input] has arrived. *)
Lemma step_waiting file pre b post f s w :
  blocks file = pre ++ b :: post -> chained_from f (b :: post) = true ->
  step false answers file 0 (waiting (length pre) s w)
  = Some (arrive (length pre) post (answers (asked w)) (bump_asked w)).
Proof.
  intros Hfile Hc. unfold step, waiting. simpl.
  rewrite (block_at_member file pre b post Hfile). simpl.
  f_equal. erewrite settle_chain; try eassumption; try reflexivity.
  destruct post; reflexivity.
Qed.

(** The task that stands on a member of a chain runs the rest of the
    chain in turn. *)
Lemma chain_runs file : forall post pre b f s w,
  blocks file = pre ++ b :: post -> chained_from f (b :: post) = true ->
  runs_to false answers file (ready (length pre) s w)
          (snd (fold_left (block_effect false answers) (b :: post) (s, w))).
Proof.
  induction post as [|b' post IH]; intros pre b f s w Hfile Hc.
  - (* the last member *)
    pose proof (step_ready file pre b [] f s w Hfile Hc) as Hs.
    destruct b as [l r bs i | l r name arguments | l r str].
    + apply chained_from_inv in Hc as (Hleaf & _). discriminate.
    + destruct (String.eqb_spec name "input") as [-> | Hn].
      * eapply runs_to_step; [reflexivity | reflexivity | exact Hs |].
        eapply runs_to_step; [reflexivity | reflexivity | |].
        { eapply step_waiting; eassumption. }
        apply runs_to_finished.
      * eapply runs_to_step; [reflexivity | reflexivity | exact Hs |].
        apply runs_to_finished.
    + eapply runs_to_step; [reflexivity | reflexivity | exact Hs |].
      apply runs_to_finished.
  - (* a member with a successor *)
    pose proof (step_ready file pre b (b' :: post) f s w Hfile Hc) as Hs.
    pose proof (chained_from_inv _ _ _ Hc) as (Hleaf & _ & _ & Hrest).
    assert (Hnext : forall s' w',
      runs_to false answers file (ready (length pre + 1) s' w')
              (snd (fold_left (block_effect false answers) (b' :: post) (s', w')))).
    { intros s' w'.
      replace (length pre + 1) with (length (pre ++ [b]))
        by (rewrite length_app; reflexivity).
      apply (IH (pre ++ [b]) b' false); [|exact Hrest].
      rewrite <- app_assoc. exact Hfile. }
    destruct b as [l r bs i | l r name arguments | l r str]; [discriminate| |].
    + destruct (String.eqb_spec name "input") as [-> | Hn].
      * eapply runs_to_step; [reflexivity | reflexivity | exact Hs |].
        eapply runs_to_step; [reflexivity | reflexivity | |].
        { eapply step_waiting; eassumption. }
        apply Hnext.
      * eapply runs_to_step; [reflexivity | reflexivity | exact Hs |].
        change (fold_left (block_effect false answers) (Call l r name arguments :: b' :: post) (s, w))
          with (fold_left (block_effect false answers) (b' :: post)
                  (block_effect false answers (s, w) (Call l r name arguments))).
        rewrite (surjective_pairing (block_effect false answers (s, w) (Call l r name arguments))) at 3.
        apply Hnext.
    + eapply runs_to_step; [reflexivity | reflexivity | exact Hs |].
      apply Hnext.
Qed.

(** The runs of a program whose top level is a chain. *)
Lemma chain_program_runs file :
  chained (blocks file) = true ->
  (exists order schedule cfg,
      Permutation order (beginBlockIndex file) /\
      run false answers file schedule (start order) = Some cfg /\ running cfg = 0) /\
  (forall order schedule cfg,
      Permutation order (beginBlockIndex file) ->
      run false answers file schedule (start order) = Some cfg ->
      length (tasks cfg) <= 1 /\
      (running cfg = 0 -> world cfg = snd (sequential false answers (blocks file)))).
Proof.
  intros Hc. rewrite (begin_chain file Hc). unfold sequential.
  destruct (blocks file) as [|b post] eqn:Hfile.
  - split.
    + exists [], [], (start []). repeat split; auto.
    + intros order schedule cfg Hp Hr. apply Permutation_nil_r in Hp. subst order.
      destruct schedule as [|i rest]; [|discriminate Hr].
      injection Hr as <-. split; [simpl; lia | reflexivity].
  - destruct (chain_runs file post [] b true "" World0 Hfile Hc)
      as [(schedule & cfg & Hr & Hd) Hall].
    split.
    + exists [0], schedule, cfg. auto.
    + intros order schedule' cfg' Hp Hr'.
      apply Permutation_singleton_r in Hp. subst order.
      destruct (Hall _ _ Hr') as [Hlen Hw]. split; [lia | exact Hw].
Qed.

(** C7: a program without arrow tokens has at most one top-level block
    (what follows a Literal or a Call without an arrow is merged into it),
    so a sequence of Literal and Call blocks is one whose members are
    joined by right-pointing send arrows.  For every such program a batch
    run ends, and every batch run (whatever the order the driver starts the
    begin blocks in, and whatever the interleaving of the tasks) has one
    task at most and the output of the sequential reading: each Literal's
    text appended and each Call's built-in applied, from left to right, to
    a single stream. *)
Theorem send_chain_runs_sequentially code tokens file :
  tokenize code = Ok tokens -> load code = Ok file ->
  (Forall no_arrow_token tokens ->
     length (blocks file) <= 1 /\
     (Forall (fun b => is_branch b = false) (blocks file) ->
      chained (blocks file) = true)) /\
  (chained (blocks file) = true ->
     (exists out, sendhelp false answers code out) /\
     (forall out, sendhelp false answers code out ->
                  out = Some (output (snd (sequential false answers (blocks file))))) /\
     (forall order schedule cfg,
         Permutation order (beginBlockIndex file) ->
         run false answers file schedule (start order) = Some cfg ->
         length (tasks cfg) <= 1)).
Proof.
  intros Htok Hload. split.
  - intros Hfree.
    destruct (load_inv _ _ Hload) as (tokens' & Htok' & Hparse & _).
    rewrite Htok in Htok'. injection Htok' as <-.
    destruct (parse_plain _ _ Hfree Hparse) as [-> | (b & -> & Hl & Hr)].
    + split; [simpl; lia | reflexivity].
    + split; [simpl; lia|]. intros Hleaf.
      inversion Hleaf as [|? ? Hb _]; subst.
      unfold chained. simpl. rewrite Hb, Hl, Hr. reflexivity.
  - intros Hc.
    destruct (chain_program_runs file Hc) as [(order & schedule & cfg & Hp & Hr & Hd) Hall].
    split; [|split].
    + exists (Some (output (world cfg))), file, order, schedule, cfg. auto.
    + intros out (file' & order' & schedule' & cfg' & Hl' & Hp' & Hr' & Hd' & ->).
      rewrite Hload in Hl'. injection Hl' as <-.
      destruct (Hall _ _ _ Hp' Hr') as [_ Hw]. rewrite (Hw Hd'). reflexivity.
    + intros order' schedule' cfg' Hp' Hr'. apply (Hall _ _ _ Hp' Hr').
Qed.

End Chain.

Lemma load_program_chain : load program_chain = Ok file_chain.
Proof. vm_compute. reflexivity. Qed.

Lemma send_chain_runs_sequentially_witness :
  (exists out, sendhelp false (fun _ => "") program_chain out) /\
  (forall out, sendhelp false (fun _ => "") program_chain out -> out = Some "Hi!8").
Proof.
  destruct (send_chain_runs_sequentially (js := js_reference) (fun _ => "")
              program_chain
              [(STRING, "Hi!"); (ARROW, "->"); (INSTANCE, "print"); (ARROW, "->");
               (INSTANCE, "nothing"); (ARROW, "->"); (STRING, "5"); (ARROW, "->");
               (INSTANCE, "sum"); (INSTANCE, "1"); (INSTANCE, "2"); (ARROW, "-->");
               (INSTANCE, "print")]
              file_chain eq_refl load_program_chain) as [_ H].
  destruct (H eq_refl) as (Hex & Hall & _).
  split; [exact Hex|]. intros out Hout. rewrite (Hall out Hout). reflexivity.
Defined.

(** Without an arrow in between, a name after a Literal is no Call of its
    own: it is appended to the Literal's text.  The Literal [Hi!] followed
    by the Call [print], read as a sequence, prints [Hi!]; the program
    prints nothing. *)
Lemma literal_then_call_is_one_literal :
  tokenize program_hi_print = Ok [(STRING, "Hi!"); (INSTANCE, "print")] /\
  Forall no_arrow_token [(STRING, "Hi!"); (INSTANCE, "print")] /\
  output (snd (sequential (js := js_reference) false (fun _ => "")
                 [StringBlock None None "Hi!"; Call None None "print" []])) = "Hi!" /\
  load program_hi_print
  = Ok (BlockBranch None None
          [StringBlock None None ("Hi!" +:+ String JS.newline "print")] None) /\
  sendhelp (js := js_reference) false (fun _ => "") program_hi_print (Some "") /\
  ~ sendhelp (js := js_reference) false (fun _ => "") program_hi_print (Some "Hi!").
Proof.
  assert (Hload : load program_hi_print
                  = Ok (BlockBranch None None
                          [StringBlock None None ("Hi!" +:+ String JS.newline "print")] None))
    by (vm_compute; reflexivity).
  split; [vm_compute; reflexivity|].
  split; [repeat constructor; discriminate|].
  split; [vm_compute; reflexivity|].
  split; [exact Hload|].
  split.
  - eexists _, [0], [0], _. split; [exact Hload|].
    split; [reflexivity|]. split; [vm_compute; reflexivity|]. split; reflexivity.
  - intros (file & order & schedule & cfg & Hl & Hp & Hr & Hd & Hout).
    rewrite Hload in Hl. injection Hl as <-.
    destruct (chain_program_runs (js := js_reference) (fun _ => "")
                (BlockBranch None None
                   [StringBlock None None ("Hi!" +:+ String JS.newline "print")] None)
                eq_refl) as [_ Hall].
    destruct (Hall _ _ _ Hp Hr) as [_ Hw]. rewrite (Hw Hd) in Hout. discriminate Hout.
Qed.
